(** * poliastro.twobody: elements <-> vectors conversion, Kepler propagation
    wrapper and the [State] class

  Shallow embedding of [src/poliastro/twobody.py].

  Numbers.  numpy's float64 scalars are modelled by the real numbers of the
  Standard Library: rounding, NaN, infinities and signed zeros are not
  modelled, so the statements about [coe2rv] and [rv2coe] are about the
  exact-arithmetic reading of the formulas.  The one exception is module
  [Ieee], which models the rounding inside the float remainder [%]: at an
  angle of zero it makes the program differ from the exact reading by a
  full turn.  [coe2rv] is duck-typed in the source (it runs on plain
  floats in the tests and on astropy quantities inside
  [State.from_elements]); it is therefore written once over the interface
  [Num] and instantiated at [R].

  Objects.  [State] instances, attractors and element sequences are Python
  objects with identity; they live in a store indexed by locations, and the
  methods of [State] are computations in a small monad that threads the
  store together with a log of the collaborator calls they make. *)

From Stdlib Require Import Reals Lra Lia ZArith List RNsatz Ascii String.
From stdpp Require Import base gmap list strings.

(** ** Numeric interface (the operations [coe2rv] uses on its arguments) *)

Class Num (T : Type) := {
  of_Z  : Z -> T;          (* an int literal meeting a [T] *)
  nadd  : T -> T -> T;
  nsub  : T -> T -> T;
  nmul  : T -> T -> T;
  ndiv  : T -> T -> T;
  nneg  : T -> T;
  npow  : T -> nat -> T;   (* [x ** n] for a literal [n] *)
  nsqrt : T -> T;          (* [np.sqrt] *)
  ncos  : T -> T;          (* [np.cos] *)
  nsin  : T -> T           (* [np.sin] *)
}.

Declare Scope num_scope.
Delimit Scope num_scope with num.
Infix "+" := nadd : num_scope.
Infix "-" := nsub : num_scope.
Infix "*" := nmul : num_scope.
Infix "/" := ndiv : num_scope.
Notation "- x" := (nneg x) : num_scope.
Notation "x ** n" := (npow x n) (at level 30, right associativity) : num_scope.

#[export] Instance Num_R : Num R := {|
  of_Z := IZR;
  nadd := Rplus;
  nsub := Rminus;
  nmul := Rmult;
  ndiv := Rdiv;
  nneg := Ropp;
  npow := pow;
  nsqrt := sqrt;
  ncos := cos;
  nsin := sin
|}.

(** ** Three-component arrays *)

Record vec (T : Type) : Type := Vec { vx : T; vy : T; vz : T }.
Arguments Vec {T} _ _ _.
Arguments vx {T} _.
Arguments vy {T} _.
Arguments vz {T} _.

Definition vmap {A B : Type} (f : A -> B) (u : vec A) : vec B :=
Vec (f (vx u)) (f (vy u)) (f (vz u)).

Inductive axis : Type := AxX | AxY | AxZ.

Section Generic.
Context {T : Type} `{Num T}.
Local Open Scope num_scope.

(** [np.array([x, y, z]) * s] *)
Definition vmul_scalar (u : vec T) (s : T) : vec T :=
  Vec (vx u * s) (vy u * s) (vz u * s).

(** Modelled from the spec: [poliastro.util.rotate] is not among the
    sources.  Section 4.1 describes it as applying the standard right-handed
    rotation matrix for the given principal axis to a 3-vector. *)
Definition rotate (u : vec T) (angle : T) (ax : axis) : vec T :=
  let c := ncos angle in
  let s := nsin angle in
  match ax with
  | AxX => Vec (vx u) (c * vy u - s * vz u) (s * vy u + c * vz u)
  | AxY => Vec (c * vx u + s * vz u) (vy u) (c * vz u - s * vx u)
  | AxZ => Vec (c * vx u - s * vy u) (s * vx u + c * vy u) (vz u)
  end.

(** Modelled from the spec: [poliastro.util.transform], the helper that
    [coe2rv] calls, is not among the sources.  Sections 2 and 4.1 give the
    rotation component as the one "used to build the perifocal-to-inertial
    frame transform": [transform] turns the coordinate frame by [angle]
    about the axis, so the components of the vector turn by the opposite
    angle. *)
Definition transform (u : vec T) (angle : T) (ax : axis) : vec T :=
  rotate u (- angle) ax.

(** [coe2rv], lines 109-145. *)
Definition coe2rv (k a ecc inc raan argp nu : T) : vec T * vec T :=
  let p := a * (of_Z 1 - ecc ** 2) in
  let r_pqw :=
    vmul_scalar (Vec (ncos nu / (of_Z 1 + ecc * ncos nu))
                     (nsin nu / (of_Z 1 + ecc * ncos nu))
                     (of_Z 0)) p in
  let v_pqw :=
    vmul_scalar (Vec (- nsin nu) (ecc + ncos nu) (of_Z 0)) (nsqrt (k / p)) in
  let r_ijk := transform r_pqw (- argp) AxZ in
  let r_ijk := transform r_ijk (- inc) AxX in
  let r_ijk := transform r_ijk (- raan) AxZ in
  let v_ijk := transform v_pqw (- argp) AxZ in
  let v_ijk := transform v_ijk (- inc) AxX in
  let v_ijk := transform v_ijk (- raan) AxZ in
  (r_ijk, v_ijk).
End Generic.

(** ** Float vectors and the numpy functions [rv2coe] uses *)

Module Float.
Local Open Scope R_scope.

Definition dot (a b : vec R) : R :=
  vx a * vx b + vy a * vy b + vz a * vz b.

(** [np.cross] *)
Definition cross (a b : vec R) : vec R :=
  Vec (vy a * vz b - vz a * vy b)
      (vz a * vx b - vx a * vz b)
      (vx a * vy b - vy a * vx b).

(** [numpy.linalg.norm] of a one-dimensional array *)
Definition norm (a : vec R) : R := sqrt (dot a a).

Definition vscale (s : R) (a : vec R) : vec R :=
  Vec (s * vx a) (s * vy a) (s * vz a).

Definition vdiv (a : vec R) (s : R) : vec R :=
  Vec (vx a / s) (vy a / s) (vz a / s).

Definition vadd (a b : vec R) : vec R :=
  Vec (vx a + vx b) (vy a + vy b) (vz a + vz b).

Definition vsub (a b : vec R) : vec R :=
  Vec (vx a - vx b) (vy a - vy b) (vz a - vz b).

(** [np.arccos] is [acos] of the Standard Library, which agrees with it on
    [-1, 1], where the cosine of an angle between two vectors lies. *)

(** [np.arctan2 y x], the angle of the point [(x, y)] in (-pi, pi]. *)
Definition arctan2 (y x : R) : R :=
  if Rlt_dec 0 x then atan (y / x)
  else if Rlt_dec x 0 then
    if Rle_dec 0 y then atan (y / x) + PI else atan (y / x) - PI
  else if Rlt_dec 0 y then PI / 2
  else if Rlt_dec y 0 then - (PI / 2)
  else 0.

(** Python's [x % m] on floats, read in exact arithmetic: the remainder of
    the floored division.  The float operation adds [m] to a negative
    remainder in floating point, so that for a negative [x] close to zero
    it returns [m] itself or a double just below it, where this function
    returns the real number [x + m]; module [Ieee] below models that
    step. *)
Definition pymod (x m : R) : R := x - IZR (Int_part (x / m)) * m.

Definition coe : Type := (R * R * R * R * R * R)%type.

(** [rv2coe], lines 148-174. *)
Definition rv2coe (k : R) (r v : vec R) : coe :=
  let h := cross r v in
  let n := vdiv (cross (Vec 0 0 1) h) (norm h) in
  let e := vdiv (vsub (vscale (dot v v - k / norm r) r)
                      (vscale (dot r v) v)) k in
  let ecc := norm e in
  let p := dot h h / k in
  let a := p / (1 - ecc ^ 2) in
  let inc := acos (vz h / norm h) in
  let raan := pymod (arctan2 (vy n) (vx n)) (2 * PI) in
  let argp :=
    pymod (arctan2 (dot h (cross n e) / norm h) (dot e n)) (2 * PI) in
  let nu :=
    pymod (arctan2 (dot h (cross e r) / norm h) (dot r e)) (2 * PI) in
  (a, ecc, inc, raan, argp, nu).
End Float.

(** ** The float remainder

    One rounding step of the program is modelled on its own, because it
    decides whether a normalised angle can reach 2 pi.  Python's and numpy's
    [x % m] on doubles take C's [fmod x m], which is exact, and, when the
    result is not zero and its sign differs from that of [m], add [m] to it;
    that addition is a float addition and is rounded to the nearest
    double. *)

Module Ieee.
Import Float.
Local Open Scope R_scope.









End Ieee.

(** ** Spec-side definitions used to state the claims about the formulas *)

Module Reference.
Import Float.
Local Open Scope R_scope.

(** Section 4.2, steps 1 and 2: the perifocal vectors as the spec writes
    them. *)
Definition r_pqw (a ecc nu : R) : vec R :=
  let p := a * (1 - ecc * ecc) in
  vscale (p / (1 + ecc * cos nu)) (Vec (cos nu) (sin nu) 0).

Definition v_pqw (k a ecc nu : R) : vec R :=
  let p := a * (1 - ecc * ecc) in
  vscale (sqrt (k / p)) (Vec (- sin nu) (ecc + cos nu) 0).

(** Section 4.2, step 3: by [-argp] about z, then [-inc] about x, then
    [-raan] about z. *)
Definition to_inertial (inc raan argp : R) (u : vec R) : vec R :=
  transform (transform (transform u (- argp) AxZ) (- inc) AxX) (- raan) AxZ.

(** Section 4.3, steps 1 to 8, as the spec writes them. *)
Definition rv2coe_reference (k : R) (r v : vec R) : coe :=
  let h := cross r v in
  let n := cross (Vec 0 0 1) (vdiv h (norm h)) in
  let e := vdiv (vsub (vscale (dot v v - k / norm r) r)
                      (vscale (dot r v) v)) k in
  let ecc := norm e in
  let p := dot h h / k in
  let a := p / (1 - ecc * ecc) in
  let inc := acos (vz h / norm h) in
  let raan := pymod (arctan2 (vy n) (vx n)) (2 * PI) in
  let argp := pymod (arctan2 (dot h (cross n e) / norm h) (dot e n)) (2 * PI) in
  let nu := pymod (arctan2 (dot h (cross e r) / norm h) (dot r e)) (2 * PI) in
  (a, ecc, inc, raan, argp, nu).

(** The perifocal basis in inertial coordinates: [Pv] points to perigee,
    [Qv] is a quarter turn ahead in the orbital plane, [Wv] is along the
    angular momentum. *)
Definition Pv (O i w : R) : vec R :=
  Vec (cos O * cos w - sin O * cos i * sin w)
      (sin O * cos w + cos O * cos i * sin w)
      (sin i * sin w).

Definition Qv (O i w : R) : vec R :=
  Vec (- cos O * sin w - sin O * cos i * cos w)
      (- sin O * sin w + cos O * cos i * cos w)
      (sin i * cos w).

Definition Wv (O i : R) : vec R :=
  Vec (sin O * sin i) (- cos O * sin i) (cos i).

Definition comb (a b : R) (P Q : vec R) : vec R :=
  vadd (vscale a P) (vscale b Q).

End Reference.

(** ** Collaborators outside the module *)

(** The part of astropy's [units] and [time] the module relies on.  The
    spec treats unit bookkeeping as an external collaborator, so nothing is
    assumed about these operations beyond their types. *)
Class Units := {
  Unit : Type;                              (* [astropy.units.Unit] *)
  Quantity : Type;                          (* [astropy.units.Quantity] *)
  Time : Type;                              (* [astropy.time.Time] *)
  u_m : Unit;
  u_km : Unit;
  u_s : Unit;
  u_one : Unit;
  u_rad : Unit;
  u_deg : Unit;
  u_pow : Unit -> Z -> Unit;                (* [unit ** n] *)
  u_div : Unit -> Unit -> Unit;             (* [unit / unit] *)
  q_num :: Num Quantity;                    (* arithmetic on quantities *)
  to : Quantity -> Unit -> Quantity;        (* [q.to(unit)] *)
  value : Quantity -> R;                    (* [q.value] *)
  q_of : R -> Unit -> Quantity;             (* [x * unit] for a float [x] *)
  q_per : Quantity -> Unit -> Quantity;     (* [q / unit] *)
  (* [poliastro.util.check_units], on scalar and on array quantities *)
  check_units : list Quantity -> list Unit -> bool;
  check_units_vec : list (vec Quantity) -> list Unit -> bool;
  time_add : Time -> Quantity -> Time;      (* [epoch + time_of_flight] *)
  J2000 : Time
}.

(** [_ast2body.kepler(r0, v0, tof, k)]: the compiled anomaly solver.  It
    returns the new vectors and a status as a padded byte string. *)
Class Solver := ast2body_kepler : vec R -> vec R -> R -> R -> vec R * vec R * string.

(** ** Byte strings *)

(** The bytes [bytes.strip] removes: space, tab, newline, vertical tab, form
    feed and carriage return. *)
Definition is_space (c : ascii) : bool :=
  let n := nat_of_ascii c in
  (Nat.eqb n 32 || (Nat.leb 9 n && Nat.leb n 13))%bool.

Fixpoint lstrip (s : string) : string :=
  match s with
  | EmptyString => EmptyString
  | String c s' => if is_space c then lstrip s' else s
  end.

Fixpoint rstrip (s : string) : string :=
  match s with
  | EmptyString => EmptyString
  | String c s' =>
      match rstrip s' with
      | EmptyString => if is_space c then EmptyString else String c EmptyString
      | t => String c t
      end
  end.

(** [bytes.strip()] *)
Definition strip (s : string) : string := rstrip (lstrip s).

(** Whether [bytes.decode('ascii')] succeeds: every byte is below 128. *)
Fixpoint is_ascii (s : string) : bool :=
  match s with
  | EmptyString => true
  | String c s' => (Nat.ltb (nat_of_ascii c) 128 && is_ascii s')%bool
  end.

(** Whether a byte string consists of blanks only. *)
Fixpoint all_space (s : string) : bool :=
  match s with
  | EmptyString => true
  | String c s' => (is_space c && all_space s')%bool
  end.

(** ** Objects, store and effects *)

Module Runtime.

Definition loc : Type := positive.

Inductive exn : Type :=
| ValueError (msg : string)
| UnitsError (msg : string)
| RuntimeError (msg : string)
| UnicodeDecodeError.

(** How a call ends.  [Dangling] has no Python counterpart: it marks the use
    of a reference that the store does not hold. *)
Inductive outcome (A : Type) : Type :=
| Return (a : A)
| Raise (e : exn)
| Dangling.
Arguments Return {A} _.
Arguments Raise {A} _.
Arguments Dangling {A}.

Section World.
Context {U : Units}.

(** The attributes of a [State] instance, as [__init__] sets them.
    [_elements] is [None] or a reference to a sequence of quantities. *)
Record obj : Type := Obj {
  attractor : loc;
  epoch : Time;
  r : vec Quantity;
  v : vec Quantity;
  _elements : option loc
}.

(** Calls whose order and number the claims speak about. *)
Inductive event : Type :=
| EvCheckUnits (qs : list Quantity) (us : list Unit)
| EvCheckUnitsVec (qs : list (vec Quantity)) (us : list Unit)
| EvCoe2rv (k a ecc inc raan argp nu : Quantity)
| EvRv2coe (k : R) (r v : vec R)
| EvSolver (r0 v0 : vec R) (tof k : R).

Record world : Type := World {
  states : gmap loc obj;                  (* [State] instances *)
  seqs : gmap loc (list Quantity);        (* tuples and lists of quantities *)
  bodies : gmap loc Quantity;             (* attractors, by their attribute [k] *)
  log : list event                        (* calls made so far, oldest first *)
}.

Definition M (A : Type) : Type := world -> outcome A * world.

Definition ret {A : Type} (a : A) : M A := fun w => (Return a, w).

Definition raise {A : Type} (e : exn) : M A := fun w => (Raise e, w).

Definition bind {A B : Type} (m : M A) (f : A -> M B) : M B :=
  fun w =>
    match m w with
    | (Return a, w') => f a w'
    | (Raise e, w') => (Raise e, w')
    | (Dangling, w') => (Dangling, w')
    end.

Definition emit (ev : event) : M unit :=
  fun w => (Return tt, World (states w) (seqs w) (bodies w) (log w ++ [ev])).

Definition deref {A : Type} (sel : world -> gmap loc A) (l : loc) : M A :=
  fun w => match sel w !! l with
           | Some a => (Return a, w)
           | None => (Dangling, w)
           end.

(** [State.__init__]: a new instance whose element cache is [None]. *)
Definition new_State (attractor : loc) (r v : vec Quantity) (epoch : Time) : M loc :=
  fun w =>
    let l := fresh (dom (states w)) in
    (Return l,
     World (<[l := Obj attractor epoch r v None]> (states w))
           (seqs w) (bodies w) (log w)).

(** [ss._elements = x] *)
Definition set_elements (self : loc) (x : option loc) : M unit :=
  fun w =>
    match states w !! self with
    | Some s =>
        (Return tt,
         World (<[self := Obj (attractor s) (epoch s) (r s) (v s) x]> (states w))
               (seqs w) (bodies w) (log w))
    | None => (Dangling, w)
    end.

(** A tuple display: a new sequence object. *)
Definition new_tuple (items : list Quantity) : M loc :=
  fun w =>
    let l := fresh (dom (seqs w)) in
    (Return l, World (states w) (<[l := items]> (seqs w)) (bodies w) (log w)).

(** Truth value of [self._elements]: [None] and empty sequences are false. *)
Definition truthy (x : option loc) : M bool :=
  fun w =>
    match x with
    | None => (Return false, w)
    | Some l =>
        match seqs w !! l with
        | Some items => (Return (negb (Nat.eqb (length items) 0)), w)
        | None => (Dangling, w)
        end
    end.

End World.

Declare Scope monad_scope.
Delimit Scope monad_scope with monad.
Notation "'do' x <- c1 ; c2" := (bind c1 (fun x => c2))
  (at level 10, x name, c1 at level 100, c2 at level 200) : monad_scope.
Notation "'do' ' pat <- c1 ; c2" :=
  (bind c1 (fun x => match x with pat => c2 end))
  (at level 10, pat pattern, c1 at level 100, c2 at level 200) : monad_scope.
Notation "'run' c1 ; c2" := (bind c1 (fun _ => c2))
  (at level 10, c1 at level 100, c2 at level 200) : monad_scope.

End Runtime.

Import Runtime.

Section Twobody.
Context {U : Units} {S : Solver}.
Local Open Scope monad_scope.

(** [u.km ** 3 / u.s ** 2] *)
Definition km3_s2 : Unit := u_div (u_pow u_km 3) (u_pow u_s 2).

(** [kepler], lines 177-208.  [r0] and [v0] are three-component arrays by
    type, so the two shape assertions hold. *)
Definition kepler (k : R) (r0 v0 : vec R) (tof : R) : M (vec R * vec R) :=
  run emit (EvSolver r0 v0 tof k) ;
  let '(r, v, error) := ast2body_kepler r0 v0 tof k in
  let error := strip error in
  if negb (is_ascii error) then raise UnicodeDecodeError
  else if negb (String.eqb error "ok")
       then raise (RuntimeError ("There was an error: " +:+ error))
       else ret (r, v).

End Twobody.

Module State.
Section Methods.
Context {U : Units} {S : Solver}.
Local Open Scope monad_scope.

(** [State.from_vectors], lines 44-52. *)
Definition from_vectors (attractor : loc) (r v : vec Quantity) (epoch : Time)
  : M loc :=
  run emit (EvCheckUnitsVec [r; v] [u_m; u_div u_m u_s]) ;
  if negb (check_units_vec [r; v] [u_m; u_div u_m u_s])
  then raise (UnitsError "Units must be consistent")
  else new_State attractor r v epoch.

(** [State.from_elements], lines 54-72.  [elements] is a reference: the
    sequence object the caller passes. *)
Definition from_elements (attractor : loc) (elements : loc) (epoch : Time)
  : M loc :=
  do items <- deref seqs elements ;
  if negb (Nat.eqb (length items) 6)
  then raise (ValueError "Incorrect number of parameters")
  else
    run emit (EvCheckUnits items [u_m; u_one; u_rad; u_rad; u_rad; u_rad]) ;
    if negb (check_units items [u_m; u_one; u_rad; u_rad; u_rad; u_rad])
    then raise (UnitsError "Units must be consistent")
    else
      do body_k <- deref bodies attractor ;
      let k := to body_k km3_s2 in
      match items with
      | [a; ecc; inc; raan; argp; nu] =>
          run emit (EvCoe2rv k a ecc inc raan argp nu) ;
          let '(r, v) := coe2rv k a ecc inc raan argp nu in
          do ss <- new_State attractor r v epoch ;
          run set_elements ss (Some elements) ;
          ret ss
      | _ => raise (ValueError "wrong number of values to unpack")
      end.

(** The [elements] property, lines 74-90.  The result is the value of
    [self._elements]: a reference to the cached sequence. *)
Definition elements (self : loc) : M (option loc) :=
  do s <- deref states self ;
  do cached <- truthy (_elements s) ;
  if cached then ret (_elements s)
  else
    do body_k <- deref bodies (attractor s) ;
    let k := value (to body_k km3_s2) in
    let r := vmap (fun q => value (to q u_km)) (r s) in
    let v := vmap (fun q => value (to q (u_div u_km u_s))) (v s) in
    run emit (EvRv2coe k r v) ;
    let '(a, ecc, inc, raan, argp, nu) := Float.rv2coe k r v in
    do t <- new_tuple [q_of a u_km; q_of ecc u_one;
                       to (q_of inc u_rad) u_deg;
                       to (q_of raan u_rad) u_deg;
                       to (q_of argp u_rad) u_deg;
                       to (q_of nu u_rad) u_deg] ;
    run set_elements self (Some t) ;
    do s' <- deref states self ;
    ret (_elements s').

(** [State.rv], lines 92-96. *)
Definition rv (self : loc) : M (vec Quantity * vec Quantity) :=
  do s <- deref states self ;
  ret (r s, v s).

(** [State.propagate], lines 98-106. *)
Definition propagate (self : loc) (time_of_flight : Quantity) : M loc :=
  do s <- deref states self ;
  do body_k <- deref bodies (attractor s) ;
  do '(r1, v1) <- kepler (value (to body_k km3_s2))
                      (vmap (fun q => value (to q u_km)) (r s))
                      (vmap (fun q => value (to q (u_div u_km u_s))) (v s))
                      (value (to time_of_flight u_s)) ;
  from_vectors (attractor s)
               (vmap (fun x => q_of x u_km) r1)
               (vmap (fun x => q_per (q_of x u_km) u_s) v1)
               (time_add (epoch s) time_of_flight).

(** The tuple that the [elements] property builds from the output of
    [rv2coe], lines 86-89. *)
Definition degrees_tuple (c : Float.coe) : list Quantity :=
  let '(a, ecc, inc, raan, argp, nu) := c in
  [q_of a u_km; q_of ecc u_one;
   to (q_of inc u_rad) u_deg;
   to (q_of raan u_rad) u_deg;
   to (q_of argp u_rad) u_deg;
   to (q_of nu u_rad) u_deg].

End Methods.
End State.

(** ** What a caller can do to a list it owns

    [from_elements] stores the caller's own sequence object in the cache
    (line 71); when that object is a list, the caller can still change it. *)

Module Caller.
Section Actions.
Context {U : Units}.

(** [del elements[:]]: the list object stays, its items go. *)
Definition clear (elements : loc) : M unit :=
  fun w =>
    match seqs w !! elements with
    | Some _ =>
        (Return tt,
         World (states w) (<[elements := []]> (seqs w)) (bodies w) (log w))
    | None => (Dangling, w)
    end.

End Actions.
End Caller.

(** ** A concrete unit system and a stub solver

    Enough of a unit library to run the methods on explicit inputs: units are
    products of powers of metre, kilometre, second, radian and degree; a
    quantity is a magnitude with its unit. *)

Module SI.
Local Open Scope R_scope.

Inductive unit_expr : Type :=
| Metre | Kilometre | Second | One | Radian | Degree
| UMul (a b : unit_expr)
| UDiv (a b : unit_expr)
| UPow (a : unit_expr) (n : Z)
| USqrt (a : unit_expr).

(** Size of the unit in SI base units. *)
Fixpoint factor (u : unit_expr) : R :=
  match u with
  | Metre | Second | One | Radian => 1
  | Kilometre => 1000
  | Degree => PI / 180
  | UMul a b => factor a * factor b
  | UDiv a b => factor a / factor b
  | UPow a n => powerRZ (factor a) n
  | USqrt a => sqrt (factor a)
  end.

(** Twice the exponents of length, time and angle. *)
Fixpoint dim2 (u : unit_expr) : Z * Z * Z :=
  match u with
  | Metre | Kilometre => (2, 0, 0)
  | Second => (0, 2, 0)
  | One => (0, 0, 0)
  | Radian | Degree => (0, 0, 2)
  | UMul a b =>
      let '(l1, t1, a1) := dim2 a in
      let '(l2, t2, a2) := dim2 b in (l1 + l2, t1 + t2, a1 + a2)
  | UDiv a b =>
      let '(l1, t1, a1) := dim2 a in
      let '(l2, t2, a2) := dim2 b in (l1 - l2, t1 - t2, a1 - a2)
  | UPow a n => let '(l1, t1, a1) := dim2 a in (l1 * n, t1 * n, a1 * n)
  | USqrt a => let '(l1, t1, a1) := dim2 a in (l1 / 2, t1 / 2, a1 / 2)
  end%Z.

Definition same_dim (u1 u2 : unit_expr) : bool :=
  let '(l1, t1, a1) := dim2 u1 in
  let '(l2, t2, a2) := dim2 u2 in
  (Z.eqb l1 l2 && Z.eqb t1 t2 && Z.eqb a1 a2)%bool.

Record quantity : Type := Q { magnitude : R; unit_of : unit_expr }.

Definition convert (q : quantity) (u : unit_expr) : quantity :=
  Q (magnitude q * factor (unit_of q) / factor u) u.

#[export] Instance Num_quantity : Num quantity := {|
  of_Z z := Q (IZR z) One;
  nadd x y := Q (magnitude x + magnitude (convert y (unit_of x))) (unit_of x);
  nsub x y := Q (magnitude x - magnitude (convert y (unit_of x))) (unit_of x);
  nmul x y := Q (magnitude x * magnitude y) (UMul (unit_of x) (unit_of y));
  ndiv x y := Q (magnitude x / magnitude y) (UDiv (unit_of x) (unit_of y));
  nneg x := Q (- magnitude x) (unit_of x);
  npow x n := Q (magnitude x ^ n) (UPow (unit_of x) (Z.of_nat n));
  nsqrt x := Q (sqrt (magnitude x)) (USqrt (unit_of x));
  ncos x := Q (cos (magnitude (convert x Radian))) One;
  nsin x := Q (sin (magnitude (convert x Radian))) One
|}.

(** Modelled from the spec: [poliastro.util.check_units] is not among the
    sources.  Section 6 describes it as checking that a list of quantities
    carries the expected physical dimensions, position by position. *)
Fixpoint dims_match (qs : list quantity) (us : list unit_expr) : bool :=
  match qs, us with
  | [], [] => true
  | q :: qs', u :: us' => (same_dim (unit_of q) u && dims_match qs' us')%bool
  | _, _ => false
  end.

(** An array quantity carries one unit; its first component stands for it. *)
Definition vec_head (a : vec quantity) : quantity := vx a.

#[export] Instance units : Units := {|
  Unit := unit_expr;
  Quantity := quantity;
  Time := R;
  u_m := Metre;
  u_km := Kilometre;
  u_s := Second;
  u_one := One;
  u_rad := Radian;
  u_deg := Degree;
  u_pow := UPow;
  u_div := UDiv;
  q_num := Num_quantity;
  to := convert;
  value := magnitude;
  q_of x u := Q x u;
  q_per q u := Q (magnitude q) (UDiv (unit_of q) u);
  check_units := dims_match;
  check_units_vec qs us := dims_match (map vec_head qs) us;
  time_add t q := t + magnitude (convert q Second);
  J2000 := 0
|}.

(** A solver that leaves the vectors as they are and reports [status]. *)
Definition stub (status : string) : Solver :=
  fun r0 v0 _ _ => (r0, v0, status).

End SI.

(** ** Explicit inputs on which the methods are run *)

Module Sample.
Import SI.
Local Open Scope R_scope.

Definition earth_k : quantity :=
  Q 398600 (UDiv (UPow Kilometre 3) (UPow Second 2)).

(** Six elements with the semi-major axis in kilometres, in metres, and a
    sequence of five. *)
Definition els_km : list quantity :=
  [Q 7000 Kilometre; Q (1 / 10) One; Q 1 Radian; Q 0 Radian; Q 0 Radian;
   Q 0 Radian].

Definition els_m : list quantity :=
  [Q 7000000 Metre; Q (1 / 10) One; Q 1 Radian; Q 0 Radian; Q 0 Radian;
   Q 0 Radian].

Definition els_five : list quantity :=
  [Q 7000 Kilometre; Q (1 / 10) One; Q 1 Radian; Q 0 Radian; Q 0 Radian].

Definition km_s : unit_expr := UDiv Kilometre Second.

Definition r_example : vec quantity :=
  Vec (Q 7000 Kilometre) (Q 0 Kilometre) (Q 0 Kilometre).

Definition v_example : vec quantity :=
  Vec (Q 0 km_s) (Q (15 / 2) km_s) (Q 0 km_s).

(** A [State] made from vectors (cache empty) and one whose cache holds the
    sequence at location 2. *)
Definition s_plain : obj := Obj 1%positive 0 r_example v_example None.

Definition s_cached : obj :=
  Obj 1%positive 0 r_example v_example (Some 2%positive).

Definition w0 : world :=
  World {[ 5%positive := s_plain; 6%positive := s_cached ]}
        {[ 2%positive := els_km; 3%positive := els_m; 4%positive := els_five ]}
        {[ 1%positive := earth_k ]}
        [].

(** Section 4.5 read literally: [k] is handed to [coe2rv] in the length and
    time units of the semi-major axis. *)
Definition k_in_element_units (k a : quantity) : Prop :=
  factor (unit_of k) = factor (UDiv (UPow (unit_of a) 3) (UPow Second 2)).

End Sample.

(** ** Further explicit inputs *)

Module SampleExtra.
Import SI Sample.
Local Open Scope R_scope.

(** Six elements of which the second is a length, so that the unit check
    refuses them. *)
Definition els_bad : list quantity :=
  [Q 7000 Kilometre; Q (1 / 10) Metre; Q 1 Radian; Q 0 Radian; Q 0 Radian;
   Q 0 Radian].

(** A [State] whose cache points to a sequence that has been emptied. *)
Definition s_emptied : obj :=
  Obj 1%positive 0 r_example v_example (Some 7%positive).

Definition w1 : world :=
  World {[ 5%positive := s_plain; 8%positive := s_emptied ]}
        {[ 2%positive := els_km; 7%positive := []; 9%positive := els_bad ]}
        {[ 1%positive := earth_k ]}
        [].

(** A status with a byte above 127, padded with blanks. *)
Definition status_latin1 : string := String (ascii_of_nat 233) "  ".

End SampleExtra.

(** * Facts about the conversions *)

Module FloatFacts.
Import Float Reference.
Local Open Scope R_scope.





Ltac split_dec :=
  repeat match goal with
  | |- context [Rlt_dec ?a ?b] => destruct (Rlt_dec a b)
  | |- context [Rle_dec ?a ?b] => destruct (Rle_dec a b)
  end.

Lemma arctan2_polar (l t : R) :
  0 < l -> - PI < t <= PI -> arctan2 (l * sin t) (l * cos t) = t.
Proof.
  intros Hl [Hlo Hhi].
  pose proof PI_RGT_0 as Hpi.
  assert (Hq : forall c, c <> 0 -> l * sin t / (l * c) = sin t / c)
    by (intros; field; split; lra).
  unfold arctan2.
  destruct (Rtotal_order t (- (PI / 2))) as [H1 | [H1 | H1]].
  - (* third quadrant *)
    assert (Hc : cos t < 0).
    { replace t with (- (- t)) by ring. rewrite cos_neg. apply cos_lt_0; lra. }
    assert (Hs : sin t < 0) by (apply sin_lt_0_var; lra).
    destruct (Rlt_dec 0 (l * cos t)); [nra|].
    destruct (Rlt_dec (l * cos t) 0); [|nra].
    destruct (Rle_dec 0 (l * sin t)); [nra|].
    rewrite Hq by lra. change (sin t / cos t) with (tan t).
    replace (tan t) with (tan (t + PI)).
    + rewrite atan_tan; lra.
    + unfold tan. rewrite neg_sin, neg_cos. field. lra.
  - subst t. rewrite cos_neg, sin_neg, cos_PI2, sin_PI2.
    split_dec; nra.
  - destruct (Rtotal_order t (PI / 2)) as [H2 | [H2 | H2]].
    + assert (Hc : 0 < cos t) by (apply cos_gt_0; lra).
      destruct (Rlt_dec 0 (l * cos t)); [|nra].
      rewrite Hq by lra. change (sin t / cos t) with (tan t).
      apply atan_tan; lra.
    + subst t. rewrite cos_PI2, sin_PI2.
      destruct (Rlt_dec 0 (l * 0)); [lra|].
      destruct (Rlt_dec (l * 0) 0); [lra|].
      destruct (Rlt_dec 0 (l * 1)); lra.
    + assert (Hc : cos t < 0) by (apply cos_lt_0; lra).
      assert (Hs : 0 <= sin t) by (apply sin_ge_0; lra).
      destruct (Rlt_dec 0 (l * cos t)); [nra|].
      destruct (Rlt_dec (l * cos t) 0); [|nra].
      destruct (Rle_dec 0 (l * sin t)); [|nra].
      rewrite Hq by lra. change (sin t / cos t) with (tan t).
      replace (tan t) with (tan (t - PI)).
      * rewrite atan_tan; lra.
      * unfold tan. replace (t - PI) with (- (PI - t)) by ring.
        rewrite sin_neg, cos_neg.
        replace (PI - t) with (- t + PI) by ring.
        rewrite neg_sin, neg_cos, sin_neg, cos_neg. field. lra.
Qed.


Lemma trig_period_Z (x : R) (z : Z) :
  sin (x + 2 * IZR z * PI) = sin x /\ cos (x + 2 * IZR z * PI) = cos x.
Proof.
  destruct z as [|n|n].
  - replace (x + 2 * 0 * PI) with x by ring. split; reflexivity.
  - replace (IZR (Z.pos n)) with (INR (Pos.to_nat n))
      by (rewrite INR_IZR_INZ, positive_nat_Z; reflexivity).
    split; [apply sin_period | apply cos_period].
  - set (y := x + 2 * IZR (Z.neg n) * PI).
    assert (E : x = y + 2 * INR (Pos.to_nat n) * PI).
    { unfold y. rewrite INR_IZR_INZ, positive_nat_Z.
      change (Z.neg n) with (- Z.pos n)%Z. rewrite opp_IZR. ring. }
    clearbody y. rewrite E, sin_period, cos_period. split; reflexivity.
Qed.


Lemma circle (t : R) : sin t * sin t + cos t * cos t = 1.
Proof. pose proof (sin2_cos2 t) as H. unfold Rsqr in H. exact H. Qed.

Lemma vec_eq (a b : vec R) :
  vx a = vx b -> vy a = vy b -> vz a = vz b -> a = b.
Proof. destruct a, b; simpl; intros; subst; reflexivity. Qed.

Lemma perifocal_to_inertial (O i w x y : R) :
  transform (transform (transform (Vec x y 0) (- w) AxZ) (- i) AxX) (- O) AxZ
  = comb x y (Pv O i w) (Qv O i w).
Proof.
  unfold transform, rotate, comb, vadd, vscale, Pv, Qv; simpl.
  rewrite !Ropp_involutive. apply vec_eq; simpl; ring.
Qed.

Lemma dot_PP O i w : dot (Pv O i w) (Pv O i w) = 1.
Proof.
  unfold dot, Pv; simpl.
  pose proof (circle O); pose proof (circle i); pose proof (circle w).
  nsatz.
Qed.
Lemma dot_QQ O i w : dot (Qv O i w) (Qv O i w) = 1.
Proof.
  unfold dot, Qv; simpl.
  pose proof (circle O); pose proof (circle i); pose proof (circle w).
  nsatz.
Qed.
Lemma dot_PQ O i w : dot (Pv O i w) (Qv O i w) = 0.
Proof.
  unfold dot, Pv, Qv; simpl.
  pose proof (circle O); pose proof (circle i); pose proof (circle w).
  nsatz.
Qed.
Lemma dot_WW O i : dot (Wv O i) (Wv O i) = 1.
Proof.
  unfold dot, Wv; simpl.
  pose proof (circle O); pose proof (circle i).
  nsatz.
Qed.
Lemma cross_PQ O i w : cross (Pv O i w) (Qv O i w) = Wv O i.
Proof.
  unfold cross, Pv, Qv, Wv; simpl.
  pose proof (circle O); pose proof (circle i); pose proof (circle w).
  apply vec_eq; simpl; nsatz.
Qed.

Lemma cross_comb (a b c d : R) (P Q : vec R) :
  cross (comb a b P Q) (comb c d P Q) = vscale (a * d - b * c) (cross P Q).
Proof. apply vec_eq; simpl; ring. Qed.

Lemma dot_comb_gen (a b c d : R) (P Q : vec R) :
  dot (comb a b P Q) (comb c d P Q)
  = a * c * dot P P + (a * d + b * c) * dot P Q + b * d * dot Q Q.
Proof. unfold dot; simpl; ring. Qed.

Lemma dot_comb (a b c d O i w : R) :
  dot (comb a b (Pv O i w) (Qv O i w)) (comb c d (Pv O i w) (Qv O i w))
  = a * c + b * d.
Proof. rewrite dot_comb_gen, dot_PP, dot_PQ, dot_QQ. ring. Qed.

Lemma dot_scale_W (s t O i : R) :
  dot (vscale s (Wv O i)) (vscale t (Wv O i)) = s * t.
Proof.
  transitivity (s * t * dot (Wv O i) (Wv O i)).
  - unfold dot; simpl; ring.
  - rewrite dot_WW; ring.
Qed.

Lemma norm_scale_W (s O i : R) : 0 <= s -> norm (vscale s (Wv O i)) = s.
Proof.
  intros Hs. unfold norm. rewrite dot_scale_W. now apply sqrt_square.
Qed.

Lemma norm_comb (a b O i w : R) :
  norm (comb a b (Pv O i w) (Qv O i w)) = sqrt (a * a + b * b).
Proof. unfold norm. now rewrite dot_comb. Qed.


(** Scalar identities of the perifocal plane: [cn], [sn] stand for the
    cosine and sine of the true anomaly, [d] for [1 + ecc * cn], [q] for
    [sqrt (k / p)]. *)
Lemma pf_h (e cn sn p q d : R) :
  sn * sn + cn * cn = 1 -> d = 1 + e * cn -> d <> 0 ->
  cn / d * p * ((e + cn) * q) - sn / d * p * (- sn * q) = p * q.
Proof.
  intros Hc Hd Hd0.
  transitivity (p * q * ((sn * sn + cn * cn) + e * cn) / d).
  - field; lra.
  - rewrite Hc, Hd. field. lra.
Qed.

Lemma pf_rr (cn sn p d : R) :
  sn * sn + cn * cn = 1 -> d <> 0 ->
  cn / d * p * (cn / d * p) + sn / d * p * (sn / d * p) = (p / d) * (p / d).
Proof.
  intros Hc Hd0.
  transitivity ((sn * sn + cn * cn) * ((p / d) * (p / d))).
  - field; lra.
  - rewrite Hc; ring.
Qed.



Lemma coe2rv_frame (k a ecc inc raan argp nu : R) :
  coe2rv k a ecc inc raan argp nu =
  let p := a * (1 - ecc ^ 2) in
  let d := 1 + ecc * cos nu in
  let q := sqrt (k / p) in
  (comb (cos nu / d * p) (sin nu / d * p) (Pv raan inc argp) (Qv raan inc argp),
   comb (- sin nu * q) ((ecc + cos nu) * q) (Pv raan inc argp) (Qv raan inc argp)).
Proof.
  unfold coe2rv, vmul_scalar. cbn -[pow transform].
  rewrite !Rmult_0_l, !perifocal_to_inertial. reflexivity.
Qed.






(** The concrete scenario of section 8: a circular equatorial orbit. *)
Example coe2rv_circular_equatorial :
  coe2rv 398600 7000 0 0 0 0 0
  = (Vec 7000 0 0, Vec 0 (sqrt (398600 / 7000)) 0).
Proof.
  rewrite coe2rv_frame. cbv zeta. unfold comb, Pv, Qv, vadd, vscale.
  cbn [vx vy vz]. rewrite cos_0, sin_0.
  replace (7000 * (1 - 0 ^ 2)) with 7000 by (simpl; ring).
  f_equal; apply vec_eq; cbn [vx vy vz]; field.
Qed.

(** A quarter turn of the node puts the perigee of an equatorial orbit on
    the y axis: [transform] by [-raan] turns the vector by [+raan]. *)
Example coe2rv_node_quarter_turn :
  fst (coe2rv 398600 7000 0 0 (PI / 2) 0 0) = Vec 0 7000 0.
Proof.
  rewrite coe2rv_frame. cbv zeta. unfold comb, Pv, Qv, vadd, vscale.
  cbn [fst vx vy vz]. rewrite cos_0, sin_0, cos_PI2, sin_PI2.
  apply vec_eq; cbn [vx vy vz]; simpl; field.
Qed.

(** C2: [coe2rv] builds the perifocal position and velocity of section 4.2
    and sends each of them through the same three calls of [transform]:
    [-argp] about z, [-inc] about x, [-raan] about z. *)
Theorem coe2rv_perifocal_then_rotations (k a ecc inc raan argp nu : R) :
  0 < k -> 0 <= ecc < 1 ->
  coe2rv k a ecc inc raan argp nu
  = (to_inertial inc raan argp (r_pqw a ecc nu),
     to_inertial inc raan argp (v_pqw k a ecc nu)).
Proof.
  intros _ _.
  assert (Er : vmul_scalar (Vec (cos nu / (1 + ecc * cos nu))
                                (sin nu / (1 + ecc * cos nu)) 0)
                           (a * (1 - ecc ^ 2)) = r_pqw a ecc nu).
  { unfold r_pqw, vmul_scalar, vscale. apply vec_eq; cbn; unfold Rdiv; ring. }
  assert (Ev : vmul_scalar (Vec (- sin nu) (ecc + cos nu) 0)
                           (sqrt (k / (a * (1 - ecc ^ 2)))) = v_pqw k a ecc nu).
  { unfold v_pqw, vmul_scalar, vscale.
    replace (a * (1 - ecc * ecc)) with (a * (1 - ecc ^ 2)) by (simpl; ring).
    apply vec_eq; cbn; ring. }
  unfold coe2rv, to_inertial. cbn -[transform vmul_scalar pow].
  rewrite Er, Ev. reflexivity.
Qed.

Lemma coe2rv_perifocal_then_rotations_witness :
  coe2rv 398600 7000 (1 / 10) 1 2 3 4
  = (to_inertial 1 2 3 (r_pqw 7000 (1 / 10) 4),
     to_inertial 1 2 3 (v_pqw 398600 7000 (1 / 10) 4)).
Proof. apply coe2rv_perifocal_then_rotations; lra. Defined.

(** C3: [rv2coe] computes the six elements by the formulas of section 4.3. *)
Theorem rv2coe_reference_formulas (k : R) (r v : vec R) :
  0 < k -> norm r <> 0 -> norm (cross r v) <> 0 ->
  rv2coe k r v = rv2coe_reference k r v.
Proof.
  intros _ _ _. unfold rv2coe, rv2coe_reference. cbv zeta.
  assert (En : vdiv (cross (Vec 0 0 1) (cross r v)) (norm (cross r v))
               = cross (Vec 0 0 1) (vdiv (cross r v) (norm (cross r v)))).
  { apply vec_eq; cbn [vx vy vz vdiv cross]; unfold Rdiv; ring. }
  rewrite En.
  replace (norm (vdiv (vsub (vscale (dot v v - k / norm r) r)
                            (vscale (dot r v) v)) k) ^ 2)
    with (norm (vdiv (vsub (vscale (dot v v - k / norm r) r)
                           (vscale (dot r v) v)) k)
          * norm (vdiv (vsub (vscale (dot v v - k / norm r) r)
                             (vscale (dot r v) v)) k)) by (simpl; ring).
  reflexivity.
Qed.

Lemma norm_unit_x : norm (Vec 1 0 0) = 1.
Proof.
  unfold norm, dot; simpl.
  replace (1 * 1 + 0 * 0 + 0 * 0) with 1 by ring. apply sqrt_1.
Qed.

Lemma norm_unit_z : norm (cross (Vec 1 0 0) (Vec 0 1 0)) = 1.
Proof.
  unfold norm, dot, cross; simpl.
  replace ((0 * 0 - 0 * 1) * (0 * 0 - 0 * 1) + (0 * 0 - 1 * 0) * (0 * 0 - 1 * 0)
           + (1 * 1 - 0 * 0) * (1 * 1 - 0 * 0)) with 1 by ring.
  apply sqrt_1.
Qed.

Lemma rv2coe_reference_formulas_witness :
  rv2coe 1 (Vec 1 0 0) (Vec 0 1 0) = rv2coe_reference 1 (Vec 1 0 0) (Vec 0 1 0).
Proof.
  apply (rv2coe_reference_formulas 1 (Vec 1 0 0) (Vec 0 1 0)).
  - lra.
  - rewrite norm_unit_x; lra.
  - rewrite norm_unit_z; lra.
Defined.
End FloatFacts.

(** * The float remainder at the top of its range *)

Module IeeeFacts.
Import Float Ieee.
Local Open Scope R_scope.













End IeeeFacts.

(** * Facts about [kepler] and the [State] methods *)

Section TwobodyFacts.
Context {U : Units} {S : Solver}.

Ltac monad_simpl :=
  cbn [states seqs bodies log attractor epoch r v _elements fst snd negb
       Nat.eqb length].

Ltac monad_step :=
  unfold bind, ret, raise, emit, deref, new_State, set_elements, new_tuple,
    truthy; monad_simpl.

Lemma kepler_run (k tof : R) (r0 v0 r1 v1 : vec R) (raw : string) (w : world) :
  ast2body_kepler r0 v0 tof k = (r1, v1, raw) ->
  is_ascii (strip raw) = true ->
  kepler k r0 v0 tof w =
  (if String.eqb (strip raw) "ok" then Return (r1, v1)
   else Raise (RuntimeError ("There was an error: " +:+ strip raw)),
   World (states w) (seqs w) (bodies w) (log w ++ [EvSolver r0 v0 tof k])).
Proof.
  intros Hs Ha. unfold kepler. monad_step. rewrite Hs, Ha. cbn.
  destruct (String.eqb (strip raw) "ok"); reflexivity.
Qed.

(** C5: [kepler] calls the solver once; with [status] the solver's status
    text (the returned bytes stripped of surrounding blanks), it returns
    the solver's vectors when [status] is [ok], and otherwise, and only
    then, raises the error whose message carries [status]. *)
Theorem kepler_invokes_solver_once
  (k tof : R) (r0 v0 r1 v1 : vec R) (raw : string) (w : world) :
  ast2body_kepler r0 v0 tof k = (r1, v1, raw) ->
  is_ascii (strip raw) = true ->
  let status := strip raw in
  let res := kepler k r0 v0 tof w in
  snd res = World (states w) (seqs w) (bodies w)
                  (log w ++ [EvSolver r0 v0 tof k])
  /\ (status = "ok"%string -> fst res = Return (r1, v1))
  /\ (status <> "ok"%string ->
      fst res = Raise (RuntimeError ("There was an error: " +:+ status)))
  /\ ((exists e, fst res = Raise e) <-> status <> "ok"%string).
Proof.
  intros Hs Ha status res. subst res.
  rewrite (kepler_run _ _ _ _ _ _ _ _ Hs Ha). fold status. cbn [fst snd].
  destruct (String.eqb_spec status "ok") as [E | E].
  - repeat split; try congruence.
    + intros [e He]. discriminate.
  - repeat split; try congruence.
    intros _. eexists. reflexivity.
Qed.

Lemma from_elements_count (attractor elements : loc) (epoch : Time)
  (items : list Quantity) (w : world) :
  seqs w !! elements = Some items ->
  length items <> 6%nat ->
  State.from_elements attractor elements epoch w
  = (Raise (ValueError "Incorrect number of parameters"), w).
Proof.
  intros Hl Hn. unfold State.from_elements. monad_step. rewrite Hl.
  destruct (Nat.eqb_spec (length items) 6) as [E | E]; [contradiction|].
  reflexivity.
Qed.

Lemma from_elements_run (att els : loc) (ep : Time)
  (a ecc inc raan argp nu body_k : Quantity) (w : world) :
  seqs w !! els = Some [a; ecc; inc; raan; argp; nu] ->
  check_units [a; ecc; inc; raan; argp; nu]
              [u_m; u_one; u_rad; u_rad; u_rad; u_rad] = true ->
  bodies w !! att = Some body_k ->
  let k := to body_k km3_s2 in
  let ss := fresh (dom (states w)) in
  State.from_elements att els ep w =
  (Return ss,
   World (<[ss := Obj att ep (fst (coe2rv k a ecc inc raan argp nu))
                      (snd (coe2rv k a ecc inc raan argp nu)) (Some els)]>
            (states w))
         (seqs w) (bodies w)
         (log w ++ [EvCheckUnits [a; ecc; inc; raan; argp; nu]
                                 [u_m; u_one; u_rad; u_rad; u_rad; u_rad];
                    EvCoe2rv k a ecc inc raan argp nu])).
Proof.
  intros Hl Hc Hb k ss. unfold State.from_elements. monad_step.
  rewrite Hl. monad_simpl. rewrite Hc. monad_simpl. rewrite Hb.
  subst k.
  destruct (coe2rv (to body_k km3_s2) a ecc inc raan argp nu) as [r0 v0].
  monad_step. rewrite lookup_insert_eq. monad_simpl.
  rewrite insert_insert_eq, <- app_assoc. reflexivity.
Qed.

Lemma fresh_state_unused (w : world) : states w !! fresh (dom (states w)) = None.
Proof. apply not_elem_of_dom, is_fresh. Qed.

Lemma fresh_tuple_unused (w : world) : seqs w !! fresh (dom (seqs w)) = None.
Proof. apply not_elem_of_dom, is_fresh. Qed.

Lemma kepler_world (k tof : R) (r0 v0 : vec R) (w : world) :
  snd (kepler k r0 v0 tof w)
  = World (states w) (seqs w) (bodies w) (log w ++ [EvSolver r0 v0 tof k]).
Proof.
  unfold kepler. monad_step.
  destruct (ast2body_kepler r0 v0 tof k) as [[r1 v1] raw].
  destruct (is_ascii (strip raw)); [|reflexivity].
  destruct (String.eqb (strip raw) "ok"); reflexivity.
Qed.

Lemma from_vectors_run (att : loc) (r0 v0 : vec Quantity) (ep : Time) (w : world) :
  check_units_vec [r0; v0] [u_m; u_div u_m u_s] = true ->
  State.from_vectors att r0 v0 ep w =
  (Return (fresh (dom (states w))),
   World (<[fresh (dom (states w)) := Obj att ep r0 v0 None]> (states w))
         (seqs w) (bodies w)
         (log w ++ [EvCheckUnitsVec [r0; v0] [u_m; u_div u_m u_s]])).
Proof.
  intros Hc. unfold State.from_vectors. monad_step. rewrite Hc. reflexivity.
Qed.

Lemma from_vectors_reject (att : loc) (r0 v0 : vec Quantity) (ep : Time) (w : world) :
  check_units_vec [r0; v0] [u_m; u_div u_m u_s] = false ->
  State.from_vectors att r0 v0 ep w =
  (Raise (UnitsError "Units must be consistent"),
   World (states w) (seqs w) (bodies w)
         (log w ++ [EvCheckUnitsVec [r0; v0] [u_m; u_div u_m u_s]])).
Proof.
  intros Hc. unfold State.from_vectors. monad_step. rewrite Hc. reflexivity.
Qed.

Lemma elements_cached (self t : loc) (s : obj) (items : list Quantity) (w : world) :
  states w !! self = Some s ->
  _elements s = Some t ->
  seqs w !! t = Some items ->
  items <> [] ->
  State.elements self w = (Return (Some t), w).
Proof.
  intros Hs He Hi Hn. unfold State.elements. monad_step.
  rewrite Hs, He, Hi. destruct items as [|q items]; [contradiction|].
  reflexivity.
Qed.

Lemma elements_computed (self : loc) (s : obj) (body_k : Quantity) (w : world) :
  states w !! self = Some s ->
  _elements s = None ->
  bodies w !! attractor s = Some body_k ->
  let k := value (to body_k km3_s2) in
  let r0 := vmap (fun q => value (to q u_km)) (r s) in
  let v0 := vmap (fun q => value (to q (u_div u_km u_s))) (v s) in
  let t := fresh (dom (seqs w)) in
  State.elements self w =
  (Return (Some t),
   World (<[self := Obj (attractor s) (epoch s) (r s) (v s) (Some t)]> (states w))
         (<[t := State.degrees_tuple (Float.rv2coe k r0 v0)]> (seqs w))
         (bodies w)
         (log w ++ [EvRv2coe k r0 v0])).
Proof.
  intros Hs He Hb k r0 v0 t. unfold State.elements. monad_step.
  rewrite Hs, He. monad_simpl. rewrite Hb. subst k r0 v0.
  destruct (Float.rv2coe _ _ _) as [[[[[a ecc] inc] raan] argp] nu].
  monad_step. rewrite Hs. monad_simpl. rewrite lookup_insert_eq.
  reflexivity.
Qed.

Lemma propagate_frame (self : loc) (tof : Quantity) (w : world) :
  let w' := snd (State.propagate self tof w) in
  (forall l s, states w !! l = Some s -> states w' !! l = Some s)
  /\ seqs w' = seqs w /\ bodies w' = bodies w.
Proof.
  intros w'.
  assert (E : exists o, State.propagate self tof w = (o, w'))
    by (eexists; apply surjective_pairing).
  destruct E as [o E]. clearbody w'. revert E.
  unfold State.propagate, bind at 1, deref at 1.
  destruct (states w !! self) as [s|]; [|intros [= <- <-]; auto].
  unfold bind at 1, deref at 1.
  destruct (bodies w !! attractor s) as [body_k|]; [|intros [= <- <-]; auto].
  unfold bind at 1.
  match goal with |- context [kepler ?k ?a ?b ?c w] =>
    pose proof (kepler_world k c a b w) as Hw;
    destruct (kepler k a b c w) as [o1 w1] end.
  cbn [snd] in Hw. subst w1.
  destruct o1 as [[r1 v1] | e |]; [|intros [= <- <-]; auto ..].
  match goal with |- context [State.from_vectors ?a ?b ?c ?d ?w0] =>
    destruct (check_units_vec [b; c] [u_m; u_div u_m u_s]) eqn:Hc;
    [rewrite (from_vectors_run a b c d w0 Hc)
    |rewrite (from_vectors_reject a b c d w0 Hc)] end.
  - intros [= <- <-]. cbn. repeat split. intros l s0 Hl.
    rewrite lookup_insert_ne; [assumption|].
    intros <-. rewrite fresh_state_unused in Hl. discriminate.
  - intros [= <- <-]. cbn. auto.
Qed.

Lemma propagate_run (self : loc) (tof body_k : Quantity) (s : obj)
  (r1 v1 : vec R) (raw : string) (w : world) :
  states w !! self = Some s ->
  bodies w !! attractor s = Some body_k ->
  let k := value (to body_k km3_s2) in
  let r0 := vmap (fun q => value (to q u_km)) (r s) in
  let v0 := vmap (fun q => value (to q (u_div u_km u_s))) (v s) in
  let t := value (to tof u_s) in
  let r1' := vmap (fun x => q_of x u_km) r1 in
  let v1' := vmap (fun x => q_per (q_of x u_km) u_s) v1 in
  ast2body_kepler r0 v0 t k = (r1, v1, raw) ->
  strip raw = "ok"%string ->
  check_units_vec [r1'; v1'] [u_m; u_div u_m u_s] = true ->
  State.propagate self tof w =
  (Return (fresh (dom (states w))),
   World (<[fresh (dom (states w)) :=
              Obj (attractor s) (time_add (epoch s) tof) r1' v1' None]> (states w))
         (seqs w) (bodies w)
         (log w ++ [EvSolver r0 v0 t k;
                    EvCheckUnitsVec [r1'; v1'] [u_m; u_div u_m u_s]])).
Proof.
  intros Hs Hb k r0 v0 t r1' v1' Hk Hok Hc.
  unfold State.propagate, bind at 1, deref at 1. rewrite Hs.
  unfold bind at 1, deref at 1. rewrite Hb.
  unfold bind at 1. fold k r0 v0 t.
  rewrite (kepler_run k t r0 v0 r1 v1 raw w Hk) by (rewrite Hok; reflexivity).
  rewrite Hok. cbn [String.eqb Ascii.eqb Bool.eqb].
  fold r1' v1'. rewrite (from_vectors_run _ _ _ _ _ Hc). monad_simpl.
  rewrite <- app_assoc. reflexivity.
Qed.

(** C6: a sequence of any length other than six is refused at once: the
    call raises the count error and leaves the world as it was, so no unit
    check, no call of [coe2rv] and no new [State] precede it. *)
Theorem from_elements_rejects_wrong_count
  (attractor elements : loc) (epoch : Time) (items : list Quantity) (w : world) :
  seqs w !! elements = Some items ->
  length items <> 6%nat ->
  State.from_elements attractor elements epoch w
  = (Raise (ValueError "Incorrect number of parameters"), w).
Proof. apply from_elements_count. Qed.

(** C7: on six elements that pass the unit check, [from_elements] converts
    the attractor's [k] to km^3/s^2, calls [coe2rv] with it after the unit
    check, stores the vectors that come back in a new [State] and sets its
    cache to the caller's sequence. *)
Theorem from_elements_converts_k_and_caches
  (att els : loc) (ep : Time)
  (a ecc inc raan argp nu body_k : Quantity) (w : world) :
  seqs w !! els = Some [a; ecc; inc; raan; argp; nu] ->
  check_units [a; ecc; inc; raan; argp; nu]
              [u_m; u_one; u_rad; u_rad; u_rad; u_rad] = true ->
  bodies w !! att = Some body_k ->
  let k := to body_k km3_s2 in
  let res := State.from_elements att els ep w in
  let ss := fresh (dom (states w)) in
  fst res = Return ss
  /\ log (snd res)
     = log w ++ [EvCheckUnits [a; ecc; inc; raan; argp; nu]
                              [u_m; u_one; u_rad; u_rad; u_rad; u_rad];
                 EvCoe2rv k a ecc inc raan argp nu]
  /\ states (snd res) !! ss
     = Some (Obj att ep (fst (coe2rv k a ecc inc raan argp nu))
                 (snd (coe2rv k a ecc inc raan argp nu)) (Some els))
  /\ seqs (snd res) = seqs w
  /\ seqs (snd res) !! els = Some [a; ecc; inc; raan; argp; nu].
Proof.
  intros Hl Hc Hb k res ss. subst res.
  rewrite (from_elements_run att els ep a ecc inc raan argp nu body_k w Hl Hc Hb).
  cbn [fst snd states seqs log]. repeat split; try assumption.
  apply lookup_insert_eq.
Qed.

(** C8: [propagate] leaves the instance it is called on, and every other
    object of the store, as it was; when the solver reports [ok] and the
    new vectors pass the unit check it returns a new instance with the same
    attractor, the solver's vectors, the epoch advanced by the time of
    flight and an empty cache. *)
Theorem propagate_returns_new_state
  (self : loc) (tof body_k : Quantity) (s : obj)
  (r1 v1 : vec R) (raw : string) (w : world) :
  states w !! self = Some s ->
  bodies w !! attractor s = Some body_k ->
  let k := value (to body_k km3_s2) in
  let r0 := vmap (fun q => value (to q u_km)) (r s) in
  let v0 := vmap (fun q => value (to q (u_div u_km u_s))) (v s) in
  let t := value (to tof u_s) in
  let r1' := vmap (fun x => q_of x u_km) r1 in
  let v1' := vmap (fun x => q_per (q_of x u_km) u_s) v1 in
  ast2body_kepler r0 v0 t k = (r1, v1, raw) ->
  let res := State.propagate self tof w in
  ((forall l s', states w !! l = Some s' -> states (snd res) !! l = Some s')
   /\ seqs (snd res) = seqs w /\ bodies (snd res) = bodies w)
  /\ (strip raw = "ok"%string ->
      check_units_vec [r1'; v1'] [u_m; u_div u_m u_s] = true ->
      let new := fresh (dom (states w)) in
      fst res = Return new
      /\ new <> self
      /\ states w !! new = None
      /\ states (snd res) !! new
         = Some (Obj (attractor s) (time_add (epoch s) tof) r1' v1' None)).
Proof.
  intros Hs Hb k r0 v0 t r1' v1' Hk res. split.
  - subst res. apply propagate_frame.
  - intros Hok Hc new. subst res.
    rewrite (propagate_run self tof body_k s r1 v1 raw w Hs Hb Hk Hok Hc).
    cbn [fst snd states]. repeat split.
    + intros E. pose proof (fresh_state_unused w) as Hf.
      fold new in Hf. rewrite E, Hs in Hf. discriminate.
    + apply fresh_state_unused.
    + apply lookup_insert_eq.
Qed.

(** C10: after [from_elements] the [elements] property returns the very
    sequence the caller passed, holding the caller's six quantities as they
    were given and with no call of [rv2coe]; after [from_vectors] it returns
    a new tuple whose four angles went through the conversion to degrees. *)
Theorem elements_alias_after_from_elements
  (att els : loc) (ep : Time)
  (a ecc inc raan argp nu body_k : Quantity) (r0 v0 : vec Quantity) (w : world) :
  seqs w !! els = Some [a; ecc; inc; raan; argp; nu] ->
  check_units [a; ecc; inc; raan; argp; nu]
              [u_m; u_one; u_rad; u_rad; u_rad; u_rad] = true ->
  check_units_vec [r0; v0] [u_m; u_div u_m u_s] = true ->
  bodies w !! att = Some body_k ->
  (let w1 := snd (State.from_elements att els ep w) in
   let ss := fresh (dom (states w)) in
   fst (State.from_elements att els ep w) = Return ss
   /\ State.elements ss w1 = (Return (Some els), w1)
   /\ seqs w1 !! els = Some [a; ecc; inc; raan; argp; nu])
  /\ (let w1 := snd (State.from_vectors att r0 v0 ep w) in
      let ss := fresh (dom (states w)) in
      let t := fresh (dom (seqs w)) in
      let k := value (to body_k km3_s2) in
      let rk := vmap (fun q => value (to q u_km)) r0 in
      let vk := vmap (fun q => value (to q (u_div u_km u_s))) v0 in
      fst (State.from_vectors att r0 v0 ep w) = Return ss
      /\ fst (State.elements ss w1) = Return (Some t)
      /\ seqs (snd (State.elements ss w1)) !! t
         = Some (State.degrees_tuple (Float.rv2coe k rk vk))
      /\ seqs w !! t = None).
Proof.
  intros Hl Hc Hcv Hb. split.
  - rewrite (from_elements_run att els ep a ecc inc raan argp nu body_k w Hl Hc Hb).
    cbn [fst snd]. repeat split; [|exact Hl].
    eapply elements_cached.
    + apply lookup_insert_eq.
    + reflexivity.
    + exact Hl.
    + discriminate.
  - rewrite (from_vectors_run att r0 v0 ep w Hcv). cbn [fst snd].
    repeat split.
    + erewrite elements_computed;
        [reflexivity | apply lookup_insert_eq | reflexivity | exact Hb].
    + erewrite elements_computed;
        [|apply lookup_insert_eq | reflexivity | exact Hb].
      cbn [snd seqs]. apply lookup_insert_eq.
    + apply fresh_tuple_unused.
Qed.
End TwobodyFacts.

(** * The methods on explicit inputs *)

Module Witnesses.
Import SI Sample.
Local Open Scope R_scope.

Lemma kepler_invokes_solver_once_witness :
  fst (kepler (U := units) (S := stub "ok      ") 398600 (Vec 7000 0 0) (Vec 0 (15 / 2) 0) 60 w0)
  = Return (Vec 7000 0 0, Vec 0 (15 / 2) 0)
  /\ fst (kepler (U := units) (S := stub "no convergence  ") 398600 (Vec 7000 0 0)
                 (Vec 0 (15 / 2) 0) 60 w0)
     = Raise (RuntimeError "There was an error: no convergence").
Proof.
  split.
  - apply (kepler_invokes_solver_once (U := units) (S := stub "ok      ") 398600 60
             (Vec 7000 0 0) (Vec 0 (15 / 2) 0) (Vec 7000 0 0) (Vec 0 (15 / 2) 0)
             "ok      " w0); reflexivity.
  - apply (kepler_invokes_solver_once (U := units) (S := stub "no convergence  ") 398600 60
             (Vec 7000 0 0) (Vec 0 (15 / 2) 0) (Vec 7000 0 0) (Vec 0 (15 / 2) 0)
             "no convergence  " w0); [reflexivity | reflexivity | discriminate].
Defined.

Lemma from_elements_rejects_wrong_count_witness :
  State.from_elements (U := units) 1%positive 4%positive 0 w0
  = (Raise (ValueError "Incorrect number of parameters"), w0).
Proof.
  apply (from_elements_rejects_wrong_count (U := units) 1%positive 4%positive 0 els_five w0).
  - reflexivity.
  - simpl. lia.
Defined.

Lemma from_elements_converts_k_and_caches_witness :
  log (snd (State.from_elements (U := units) 1%positive 2%positive 0 w0))
  = [EvCheckUnits els_km [Metre; One; Radian; Radian; Radian; Radian];
     EvCoe2rv (convert earth_k (UDiv (UPow Kilometre 3) (UPow Second 2)))
              (Q 7000 Kilometre) (Q (1 / 10) One) (Q 1 Radian)
              (Q 0 Radian) (Q 0 Radian) (Q 0 Radian)].
Proof.
  apply (from_elements_converts_k_and_caches (U := units) 1%positive 2%positive 0
           (Q 7000 Kilometre) (Q (1 / 10) One) (Q 1 Radian)
           (Q 0 Radian) (Q 0 Radian) (Q 0 Radian) earth_k w0); reflexivity.
Defined.

(** C7, as the spec words it, fails on elements given in metres: the check
    accepts them, and [coe2rv] then receives [k] in km^3/s^2, a unit that is
    10^9 times the m^3/s^2 of the semi-major axis. *)
Lemma from_elements_k_not_in_element_units :
  check_units (Units := units) els_m [Metre; One; Radian; Radian; Radian; Radian] = true
  /\ log (snd (State.from_elements (U := units) 1%positive 3%positive 0 w0))
     = [EvCheckUnits els_m [Metre; One; Radian; Radian; Radian; Radian];
        EvCoe2rv (convert earth_k (UDiv (UPow Kilometre 3) (UPow Second 2)))
                 (Q 7000000 Metre) (Q (1 / 10) One) (Q 1 Radian)
                 (Q 0 Radian) (Q 0 Radian) (Q 0 Radian)]
  /\ ~ k_in_element_units
         (convert earth_k (UDiv (UPow Kilometre 3) (UPow Second 2)))
         (Q 7000000 Metre).
Proof.
  split; [reflexivity|]. split.
  - rewrite (from_elements_run (U := units) 1%positive 3%positive 0
               (Q 7000000 Metre) (Q (1 / 10) One) (Q 1 Radian)
               (Q 0 Radian) (Q 0 Radian) (Q 0 Radian) earth_k w0);
      reflexivity.
  - unfold k_in_element_units. cbn.
    change (Pos.to_nat 3) with 3%nat. change (Pos.to_nat 2) with 2%nat.
    simpl. lra.
Qed.

Lemma propagate_returns_new_state_witness :
  fst (State.propagate (U := units) (S := stub "ok      ") 5%positive
         (Q 60 Second) w0)
  = Return (fresh (dom (states w0)))
  /\ states (snd (State.propagate (U := units) (S := stub "ok      ")
                    5%positive (Q 60 Second) w0)) !! 5%positive
     = Some s_plain.
Proof.
  destruct (propagate_returns_new_state (U := units) (S := stub "ok      ")
              5%positive (Q 60 Second) earth_k s_plain
              (vmap (fun q => magnitude (convert q Kilometre)) r_example)
              (vmap (fun q => magnitude (convert q km_s)) v_example)
              "ok      " w0) as [Hframe Hnew]; [reflexivity ..|].
  split.
  - apply Hnew; reflexivity.
  - apply (proj1 Hframe). reflexivity.
Defined.

Lemma elements_alias_after_from_elements_witness :
  State.elements (U := units) (fresh (dom (states w0)))
    (snd (State.from_elements (U := units) 1%positive 2%positive 0 w0))
  = (Return (Some 2%positive),
     snd (State.from_elements (U := units) 1%positive 2%positive 0 w0)).
Proof.
  destruct (elements_alias_after_from_elements (U := units)
              1%positive 2%positive 0
              (Q 7000 Kilometre) (Q (1 / 10) One) (Q 1 Radian)
              (Q 0 Radian) (Q 0 Radian) (Q 0 Radian) earth_k
              r_example v_example w0) as [[_ [H _]] _]; [reflexivity ..|].
  exact H.
Defined.
End Witnesses.

(** * Further facts about the conversions *)

Module FloatExtra.
Import Float Reference FloatFacts.
Local Open Scope R_scope.

Lemma dot_nonneg (a : vec R) : 0 <= dot a a.
Proof. unfold dot. nra. Qed.

Lemma norm_sqr (a : vec R) : norm a * norm a = dot a a.
Proof. unfold norm. apply sqrt_sqrt, dot_nonneg. Qed.

Lemma norm_nonneg (a : vec R) : 0 <= norm a.
Proof. unfold norm. apply sqrt_pos. Qed.

(** Lagrange's identity for the angular momentum. *)
Lemma dot_cross_cross (a b : vec R) :
  dot (cross a b) (cross a b) = dot a a * dot b b - dot a b * dot a b.
Proof. unfold dot, cross; simpl; ring. Qed.

(** The eccentricity vector of [rv2coe], line 163. *)
Lemma ecc_vector_sqr (k rho : R) (r v : vec R) :
  k <> 0 ->
  dot (vdiv (vsub (vscale (dot v v - k / rho) r) (vscale (dot r v) v)) k)
      (vdiv (vsub (vscale (dot v v - k / rho) r) (vscale (dot r v) v)) k)
  = ((dot v v - k / rho) * (dot v v - k / rho) * dot r r
     - 2 * (dot v v - k / rho) * (dot r v * dot r v)
     + dot r v * dot r v * dot v v) / (k * k).
Proof.
  intros Hk. generalize (dot v v - k / rho) as A. intros A.
  unfold dot, vdiv, vsub, vscale; simpl. field. assumption.
Qed.

Lemma one_minus_ecc_sqr (k : R) (r v : vec R) :
  0 < k -> norm r <> 0 ->
  let e := vdiv (vsub (vscale (dot v v - k / norm r) r) (vscale (dot r v) v)) k in
  1 - norm e ^ 2
  = dot (cross r v) (cross r v) / k * (2 / norm r - dot v v / k).
Proof.
  intros Hk Hr e.
  replace (norm e ^ 2) with (dot e e) by (rewrite <- norm_sqr; simpl; ring).
  unfold e. rewrite ecc_vector_sqr by lra. rewrite dot_cross_cross.
  rewrite <- (norm_sqr r). field. split; lra.
Qed.


Lemma norm_pos (a : vec R) : norm a <> 0 -> 0 < norm a.
Proof. pose proof (norm_nonneg a). lra. Qed.

(** X1: the semi-major axis that [rv2coe] returns obeys the vis-viva
    equation: [1 / a = 2 / |r| - v.v / k]. *)
Theorem rv2coe_vis_viva (k : R) (r v : vec R) :
  0 < k -> norm r <> 0 -> norm (cross r v) <> 0 ->
  2 / norm r - dot v v / k <> 0 ->
  let '(a, _, _, _, _, _) := rv2coe k r v in
  a = 1 / (2 / norm r - dot v v / k).
Proof.
  intros Hk Hr Hh Hen. unfold rv2coe. cbv zeta.
  rewrite (one_minus_ecc_sqr k r v Hk Hr).
  pose proof (norm_pos _ Hh) as HH. pose proof (norm_sqr (cross r v)) as Hs.
  assert (Hhh : dot (cross r v) (cross r v) <> 0) by nra.
  assert (Hen' : 2 * k - dot v v * norm r <> 0).
  { intros E. apply Hen.
    replace (2 / norm r - dot v v / k)
      with ((2 * k - dot v v * norm r) / (norm r * k)) by (field; lra).
    rewrite E. unfold Rdiv. ring. }
  field. repeat split; try lra; assumption.
Qed.

Lemma rv2coe_vis_viva_witness :
  let '(a, _, _, _, _, _) := rv2coe 1 (Vec 1 0 0) (Vec 0 1 0) in
  a = 1 / (2 / norm (Vec 1 0 0) - dot (Vec 0 1 0) (Vec 0 1 0) / 1).
Proof.
  apply (rv2coe_vis_viva 1 (Vec 1 0 0) (Vec 0 1 0)).
  - lra.
  - rewrite norm_unit_x; lra.
  - rewrite norm_unit_z; lra.
  - rewrite norm_unit_x. unfold dot; simpl. lra.
Defined.

(** X2: [rv2coe] reports an eccentricity below one exactly when the speed
    is below the escape speed, [v.v < 2 k / |r|], and the semi-major axis is
    then positive. *)
Theorem rv2coe_elliptic_iff_below_escape (k : R) (r v : vec R) :
  0 < k -> norm r <> 0 -> norm (cross r v) <> 0 ->
  let '(a, ecc, _, _, _, _) := rv2coe k r v in
  (ecc < 1 <-> dot v v < 2 * k / norm r) /\ (ecc < 1 -> 0 < a).
Proof.
  intros Hk Hr Hh. unfold rv2coe. cbv zeta.
  set (e := vdiv (vsub (vscale (dot v v - k / norm r) r) (vscale (dot r v) v)) k).
  pose proof (one_minus_ecc_sqr k r v Hk Hr) as E. fold e in E.
  pose proof (norm_pos _ Hh) as HH. pose proof (norm_pos _ Hr) as Hrho.
  pose proof (norm_sqr (cross r v)) as Hs.
  pose proof (norm_nonneg e) as He.
  set (p := dot (cross r v) (cross r v) / k) in *.
  assert (Hp : 0 < p) by (unfold p; apply Rdiv_lt_0_compat; nra).
  assert (Hq : 2 / norm r - dot v v / k = (2 * k / norm r - dot v v) / k)
    by (field; lra).
  assert (Hsq : norm e ^ 2 = norm e * norm e) by (simpl; ring).
  assert (Hiff : norm e < 1 <-> 0 < 2 * k / norm r - dot v v).
  { split; intros Hlt.
    - assert (0 < 1 - norm e ^ 2) by nra.
      rewrite E, Hq in H.
      assert (0 < (2 * k / norm r - dot v v) / k) by nra.
      apply Rmult_lt_reg_r with (/ k); [apply Rinv_0_lt_compat; lra|].
      unfold Rdiv in H0. lra.
    - assert (0 < (2 * k / norm r - dot v v) / k)
        by (apply Rdiv_lt_0_compat; lra).
      assert (0 < 1 - norm e ^ 2)
        by (rewrite E, Hq; apply Rmult_lt_0_compat; assumption).
      nra. }
  split.
  - split; intros Hx; [apply Hiff in Hx | apply Hiff]; lra.
  - intros Hlt. apply Rdiv_lt_0_compat; [exact Hp | nra].
Qed.

Lemma rv2coe_elliptic_iff_below_escape_witness :
  let '(a, ecc, _, _, _, _) := rv2coe 1 (Vec 1 0 0) (Vec 0 1 0) in
  (ecc < 1 <-> dot (Vec 0 1 0) (Vec 0 1 0) < 2 * 1 / norm (Vec 1 0 0))
  /\ (ecc < 1 -> 0 < a).
Proof.
  apply (rv2coe_elliptic_iff_below_escape 1 (Vec 1 0 0) (Vec 0 1 0)).
  - lra.
  - rewrite norm_unit_x; lra.
  - rewrite norm_unit_z; lra.
Defined.

(** X3: the inclination that [rv2coe] returns is the angle between the
    angular momentum and the z axis: [|h| cos inc = h_z]. *)
Theorem rv2coe_inclination_cosine (k : R) (r v : vec R) :
  norm (cross r v) <> 0 ->
  let '(_, _, inc, _, _, _) := rv2coe k r v in
  norm (cross r v) * cos inc = vz (cross r v).
Proof.
  intros Hh. unfold rv2coe. cbv zeta.
  pose proof (norm_pos _ Hh) as HH. pose proof (norm_sqr (cross r v)) as Hs.
  set (h := cross r v) in *.
  assert (Hz : vz h * vz h <= norm h * norm h).
  { rewrite Hs. unfold dot. nra. }
  rewrite cos_acos.
  - field. lra.
  - split.
    + apply Rmult_le_reg_r with (norm h); [lra|].
      unfold Rdiv. rewrite Rmult_assoc, Rinv_l by lra. nra.
    + apply Rmult_le_reg_r with (norm h); [lra|].
      unfold Rdiv. rewrite Rmult_assoc, Rinv_l by lra. nra.
Qed.

Lemma rv2coe_inclination_cosine_witness :
  let '(_, _, inc, _, _, _) := rv2coe 1 (Vec 1 0 0) (Vec 0 1 0) in
  norm (cross (Vec 1 0 0) (Vec 0 1 0)) * cos inc
  = vz (cross (Vec 1 0 0) (Vec 0 1 0)).
Proof.
  apply (rv2coe_inclination_cosine 1 (Vec 1 0 0) (Vec 0 1 0)).
  rewrite norm_unit_z; lra.
Defined.


Lemma coe2rv_radius (k a ecc inc raan argp nu : R) :
  0 < a -> 0 <= ecc < 1 ->
  norm (fst (coe2rv k a ecc inc raan argp nu))
  = a * (1 - ecc ^ 2) / (1 + ecc * cos nu).
Proof.
  intros Ha Hecc. rewrite coe2rv_frame. cbv zeta. cbn [fst].
  set (p := a * (1 - ecc ^ 2)). set (d := 1 + ecc * cos nu).
  assert (Hp : 0 < p) by (unfold p; simpl; apply Rmult_lt_0_compat; nra).
  assert (Hd : 0 < d) by (unfold d; pose proof (COS_bound nu); nra).
  rewrite norm_comb, pf_rr by (try apply circle; lra).
  apply sqrt_square, Rlt_le, Rdiv_lt_0_compat; assumption.
Qed.

(** X4: the position that [coe2rv] returns lies at the distance the conic
    equation gives, [|r| = a (1 - ecc^2) / (1 + ecc cos nu)], whatever the
    three orientation angles; circular and equatorial orbits included. *)
Theorem coe2rv_orbit_equation (k a ecc inc raan argp nu : R) :
  0 < a -> 0 <= ecc < 1 ->
  norm (fst (coe2rv k a ecc inc raan argp nu))
  = a * (1 - ecc ^ 2) / (1 + ecc * cos nu).
Proof. apply coe2rv_radius. Qed.

Lemma coe2rv_orbit_equation_witness :
  norm (fst (coe2rv 398600 7000 0 0 0 0 0))
  = 7000 * (1 - 0 ^ 2) / (1 + 0 * cos 0).
Proof. apply (coe2rv_orbit_equation 398600 7000 0 0 0 0 0); lra. Defined.

(** X5: the vectors that [coe2rv] returns obey the vis-viva equation,
    [v.v = k (2 / |r| - 1 / a)]. *)
Theorem coe2rv_vis_viva (k a ecc inc raan argp nu : R) :
  0 < k -> 0 < a -> 0 <= ecc < 1 ->
  let r := fst (coe2rv k a ecc inc raan argp nu) in
  let v := snd (coe2rv k a ecc inc raan argp nu) in
  dot v v = k * (2 / norm r - 1 / a).
Proof.
  intros Hk Ha Hecc r v.
  assert (Hn : norm r = a * (1 - ecc ^ 2) / (1 + ecc * cos nu))
    by (apply coe2rv_radius; assumption).
  rewrite Hn. unfold v. rewrite coe2rv_frame. cbv zeta. cbn [snd].
  set (p := a * (1 - ecc ^ 2)). set (d := 1 + ecc * cos nu).
  assert (Hp : 0 < p) by (unfold p; simpl; apply Rmult_lt_0_compat; nra).
  assert (Hd : 0 < d) by (unfold d; pose proof (COS_bound nu); nra).
  assert (Hqq : sqrt (k / p) * sqrt (k / p) = k / p).
  { apply sqrt_sqrt, Rlt_le, Rdiv_lt_0_compat; assumption. }
  rewrite dot_comb.
  transitivity (sqrt (k / p) * sqrt (k / p)
                * ((sin nu * sin nu + cos nu * cos nu)
                   + 2 * ecc * cos nu + ecc * ecc)).
  - ring.
  - rewrite Hqq, circle. unfold p, d. simpl. field.
    repeat split; try lra.
    + fold d. lra.
    + unfold p in Hp. simpl in Hp. nra.
Qed.

Lemma coe2rv_vis_viva_witness :
  dot (snd (coe2rv 398600 7000 (1 / 2) 1 2 3 4))
      (snd (coe2rv 398600 7000 (1 / 2) 1 2 3 4))
  = 398600 * (2 / norm (fst (coe2rv 398600 7000 (1 / 2) 1 2 3 4)) - 1 / 7000).
Proof. apply (coe2rv_vis_viva 398600 7000 (1 / 2) 1 2 3 4); lra. Defined.

(** X6: the angular momentum of the vectors that [coe2rv] returns has squared
    length [k a (1 - ecc^2)] and makes the angle [inc] with the z axis. *)
Theorem coe2rv_angular_momentum (k a ecc inc raan argp nu : R) :
  0 < k -> 0 < a -> 0 <= ecc < 1 ->
  let h := cross (fst (coe2rv k a ecc inc raan argp nu))
                 (snd (coe2rv k a ecc inc raan argp nu)) in
  dot h h = k * (a * (1 - ecc ^ 2)) /\ vz h = norm h * cos inc.
Proof.
  intros Hk Ha Hecc h. unfold h. rewrite coe2rv_frame. cbv zeta. cbn [fst snd].
  set (p := a * (1 - ecc ^ 2)). set (d := 1 + ecc * cos nu).
  set (q := sqrt (k / p)).
  assert (Hp : 0 < p) by (unfold p; simpl; apply Rmult_lt_0_compat; nra).
  assert (Hd : 0 < d) by (unfold d; pose proof (COS_bound nu); nra).
  assert (Hq : 0 < q) by (apply sqrt_lt_R0, Rdiv_lt_0_compat; assumption).
  assert (Hqq : q * q = k / p).
  { apply sqrt_sqrt, Rlt_le, Rdiv_lt_0_compat; assumption. }
  rewrite cross_comb, cross_PQ.
  rewrite (pf_h ecc (cos nu) (sin nu) p q d) by (try apply circle; auto; lra).
  rewrite dot_scale_W, norm_scale_W by nra. split.
  - transitivity (p * p * (q * q)); [ring|]. rewrite Hqq. field. lra.
  - reflexivity.
Qed.

Lemma coe2rv_angular_momentum_witness :
  let h := cross (fst (coe2rv 398600 7000 (1 / 2) 1 2 3 4))
                 (snd (coe2rv 398600 7000 (1 / 2) 1 2 3 4)) in
  dot h h = 398600 * (7000 * (1 - (1 / 2) ^ 2)) /\ vz h = norm h * cos 1.
Proof. apply (coe2rv_angular_momentum 398600 7000 (1 / 2) 1 2 3 4); lra. Defined.


End FloatExtra.

(** * Further facts about [kepler] and the [State] methods *)

Lemma lstrip_blank_prefix (pre s : string) :
  all_space pre = true -> lstrip (pre +:+ s) = lstrip s.
Proof.
  induction pre as [|c pre IH]; simpl; [reflexivity|].
  intros Hp. apply andb_prop in Hp as [Hc Hp]. rewrite Hc. auto.
Qed.

Lemma rstrip_blank (post : string) : all_space post = true -> rstrip post = "".
Proof.
  induction post as [|c post IH]; simpl; [reflexivity|].
  intros Hp. apply andb_prop in Hp as [Hc Hp]. rewrite (IH Hp), Hc. reflexivity.
Qed.

Lemma rstrip_nonempty (s : string) : rstrip s <> "" -> s <> "".
Proof. destruct s; [simpl; congruence | discriminate]. Qed.

Lemma rstrip_blank_suffix (s post : string) :
  all_space post = true -> rstrip (s +:+ post) = rstrip s.
Proof.
  intros Hp. induction s as [|c s IH]; simpl.
  - now apply rstrip_blank.
  - rewrite IH. reflexivity.
Qed.

Lemma lstrip_fixed_app (s post : string) :
  lstrip s = s -> s <> "" -> lstrip (s +:+ post) = s +:+ post.
Proof.
  destruct s as [|c s]; [congruence|]. simpl.
  destruct (is_space c) eqn:Hc; [|reflexivity].
  intros E _. exfalso.
  assert (Hlen : forall t, String.length (lstrip t) <= String.length t).
  { induction t as [|c' t IHt]; simpl; [lia|].
    destruct (is_space c'); simpl; lia. }
  specialize (Hlen s). rewrite E in Hlen. simpl in Hlen. lia.
Qed.

(** A status text without blanks at its ends, padded with blanks on both
    sides, strips back to itself. *)
Lemma strip_padding (pre s post : string) :
  all_space pre = true -> all_space post = true ->
  lstrip s = s -> rstrip s = s ->
  strip (pre +:+ s +:+ post) = s.
Proof.
  intros Hpre Hpost Hl Hr. unfold strip. rewrite lstrip_blank_prefix by assumption.
  destruct s as [|c s].
  - change ("" +:+ post) with post.
    replace (lstrip post) with ""%string; [reflexivity|].
    clear - Hpost. induction post as [|c post IH]; simpl; [reflexivity|].
    simpl in Hpost. apply andb_prop in Hpost as [Hc Hp]. rewrite Hc. auto.
  - rewrite lstrip_fixed_app by (assumption || discriminate).
    rewrite rstrip_blank_suffix by assumption. exact Hr.
Qed.

Section TwobodyExtra.
Context {U : Units} {S : Solver}.

Ltac monad_simpl :=
  cbn [states seqs bodies log attractor epoch r v _elements fst snd negb
       Nat.eqb length].

Ltac monad_step :=
  unfold bind, ret, raise, emit, deref, new_State, set_elements, new_tuple,
    truthy; monad_simpl.

(** X8: blanks around the solver's status do not matter: with any blank
    padding on either side, [kepler] behaves as on the bare status text. *)
Theorem kepler_ignores_padding
  (k tof : R) (r0 v0 r1 v1 : vec R) (pre s post : string) (w : world) :
  all_space pre = true -> all_space post = true ->
  lstrip s = s -> rstrip s = s -> is_ascii s = true ->
  ast2body_kepler r0 v0 tof k = (r1, v1, pre +:+ s +:+ post) ->
  kepler k r0 v0 tof w =
  (if String.eqb s "ok" then Return (r1, v1)
   else Raise (RuntimeError ("There was an error: " +:+ s)),
   World (states w) (seqs w) (bodies w) (log w ++ [EvSolver r0 v0 tof k])).
Proof.
  intros Hpre Hpost Hl Hr Ha Hs.
  pose proof (strip_padding pre s post Hpre Hpost Hl Hr) as E.
  rewrite (kepler_run k tof r0 v0 r1 v1 _ w Hs) by (rewrite E; exact Ha).
  rewrite E. reflexivity.
Qed.

(** X9: a status that is not ASCII after stripping makes [kepler] raise
    [UnicodeDecodeError], not [RuntimeError]; the solver has still been
    called once and no object has changed. *)
Theorem kepler_undecodable_status
  (k tof : R) (r0 v0 r1 v1 : vec R) (raw : string) (w : world) :
  ast2body_kepler r0 v0 tof k = (r1, v1, raw) ->
  is_ascii (strip raw) = false ->
  kepler k r0 v0 tof w =
  (Raise UnicodeDecodeError,
   World (states w) (seqs w) (bodies w) (log w ++ [EvSolver r0 v0 tof k])).
Proof.
  intros Hs Ha. unfold kepler. monad_step. rewrite Hs, Ha. reflexivity.
Qed.

(** X10: when the solver reports anything but [ok], [propagate] raises the
    solver's error, creates no [State] and does not reach the unit check. *)
Theorem propagate_failure_creates_nothing
  (self : loc) (tof body_k : Quantity) (s : obj)
  (r1 v1 : vec R) (raw : string) (w : world) :
  states w !! self = Some s ->
  bodies w !! attractor s = Some body_k ->
  let k := value (to body_k km3_s2) in
  let r0 := vmap (fun q => value (to q u_km)) (r s) in
  let v0 := vmap (fun q => value (to q (u_div u_km u_s))) (v s) in
  let t := value (to tof u_s) in
  ast2body_kepler r0 v0 t k = (r1, v1, raw) ->
  is_ascii (strip raw) = true ->
  strip raw <> "ok"%string ->
  State.propagate self tof w =
  (Raise (RuntimeError ("There was an error: " +:+ strip raw)),
   World (states w) (seqs w) (bodies w) (log w ++ [EvSolver r0 v0 t k])).
Proof.
  intros Hs Hb k r0 v0 t Hk Ha Hne.
  unfold State.propagate, bind at 1, deref at 1. rewrite Hs.
  unfold bind at 1, deref at 1. rewrite Hb.
  unfold bind at 1. fold k r0 v0 t.
  rewrite (kepler_run k t r0 v0 r1 v1 raw w Hk Ha).
  destruct (String.eqb_spec (strip raw) "ok") as [E | E]; [contradiction|].
  reflexivity.
Qed.

(** X11: six elements that fail the unit check make [from_elements] raise
    [UnitsError] after that single check: [coe2rv] is not called and no
    [State] is created. *)
Theorem from_elements_units_error
  (att els : loc) (ep : Time) (items : list Quantity) (w : world) :
  seqs w !! els = Some items ->
  length items = 6%nat ->
  check_units items [u_m; u_one; u_rad; u_rad; u_rad; u_rad] = false ->
  State.from_elements att els ep w =
  (Raise (UnitsError "Units must be consistent"),
   World (states w) (seqs w) (bodies w)
         (log w ++ [EvCheckUnits items [u_m; u_one; u_rad; u_rad; u_rad; u_rad]])).
Proof.
  intros Hl Hn Hc. unfold State.from_elements. monad_step.
  rewrite Hl, Hn. monad_simpl. rewrite Hc. reflexivity.
Qed.

(** X12: [from_vectors] either refuses the vectors with [UnitsError],
    creating nothing, or returns a new [State] with an empty cache from
    which [rv] reads back exactly the two vectors given. *)
Theorem from_vectors_then_rv
  (att : loc) (r0 v0 : vec Quantity) (ep : Time) (w : world) :
  let res := State.from_vectors att r0 v0 ep w in
  if check_units_vec [r0; v0] [u_m; u_div u_m u_s]
  then exists ss,
      fst res = Return ss
      /\ states w !! ss = None
      /\ states (snd res) !! ss = Some (Obj att ep r0 v0 None)
      /\ State.rv ss (snd res) = (Return (r0, v0), snd res)
  else fst res = Raise (UnitsError "Units must be consistent")
       /\ states (snd res) = states w.
Proof.
  intros res. subst res.
  destruct (check_units_vec [r0; v0] [u_m; u_div u_m u_s]) eqn:Hc.
  - rewrite (from_vectors_run att r0 v0 ep w Hc). cbn [fst snd states].
    exists (fresh (dom (states w))). repeat split.
    + apply fresh_state_unused.
    + apply lookup_insert_eq.
    + unfold State.rv. monad_step. rewrite lookup_insert_eq. reflexivity.
  - rewrite (from_vectors_reject att r0 v0 ep w Hc). split; reflexivity.
Qed.


Lemma elements_recomputed (self : loc) (s : obj) (body_k : Quantity) (w : world) :
  states w !! self = Some s ->
  truthy (_elements s) w = (Return false, w) ->
  bodies w !! attractor s = Some body_k ->
  let k := value (to body_k km3_s2) in
  let r0 := vmap (fun q => value (to q u_km)) (r s) in
  let v0 := vmap (fun q => value (to q (u_div u_km u_s))) (v s) in
  let t := fresh (dom (seqs w)) in
  State.elements self w =
  (Return (Some t),
   World (<[self := Obj (attractor s) (epoch s) (r s) (v s) (Some t)]> (states w))
         (<[t := State.degrees_tuple (Float.rv2coe k r0 v0)]> (seqs w))
         (bodies w)
         (log w ++ [EvRv2coe k r0 v0])).
Proof.
  intros Hs Ht Hb k r0 v0 t. unfold State.elements.
  unfold bind at 1, deref at 1. rewrite Hs.
  unfold bind at 1. rewrite Ht.
  monad_step. rewrite Hb. subst k r0 v0.
  destruct (Float.rv2coe _ _ _) as [[[[[a ecc] inc] raan] argp] nu].
  monad_step. rewrite Hs. monad_simpl. rewrite lookup_insert_eq.
  reflexivity.
Qed.

(** X13: whatever its outcome, the [elements] property changes nothing but
    the cache of the instance it is called on: attractor, epoch and vectors
    of every instance, the cache of every other instance, every existing
    sequence and every attractor stay as they were. *)
Theorem elements_changes_only_own_cache (self : loc) (w : world) :
  let w' := snd (State.elements self w) in
  (forall l s, states w !! l = Some s ->
     exists c, states w' !! l
               = Some (Obj (attractor s) (epoch s) (r s) (v s) c)
               /\ (l <> self -> c = _elements s))
  /\ (forall t items, seqs w !! t = Some items -> seqs w' !! t = Some items)
  /\ bodies w' = bodies w.
Proof.
  intros w'.
  assert (Hsame : forall w0 : world,
    (forall l s, states w0 !! l = Some s ->
       exists c, states w0 !! l
                 = Some (Obj (attractor s) (epoch s) (r s) (v s) c)
                 /\ (l <> self -> c = _elements s))
    /\ (forall t items, seqs w0 !! t = Some items -> seqs w0 !! t = Some items)
    /\ bodies w0 = bodies w0).
  { intros w0. repeat split; auto. intros l [a0 e0 r0 v0 c0] Hl.
    exists c0. split; auto. }
  assert (E : exists o, State.elements self w = (o, w'))
    by (eexists; apply surjective_pairing).
  destruct E as [o E]. clearbody w'. revert E.
  unfold State.elements, bind at 1, deref at 1.
  destruct (states w !! self) as [s|] eqn:Hs;
    [|intros [= <- <-]; apply Hsame].
  unfold bind at 1.
  destruct (truthy (_elements s) w) as [ot wt] eqn:Ht.
  assert (Hwt : wt = w).
  { revert Ht. unfold truthy. destruct (_elements s) as [t|].
    - destruct (seqs w !! t); intros [= _ <-]; reflexivity.
    - intros [= _ <-]; reflexivity. }
  subst wt.
  destruct ot as [[|] | e |]; try (intros [= <- <-]; apply Hsame).
  destruct (bodies w !! attractor s) as [body_k|] eqn:Hb.
  - pose proof (elements_recomputed self s body_k w Hs Ht Hb) as Hrun.
    cbv zeta in Hrun. unfold State.elements, bind at 1, deref at 1 in Hrun.
    rewrite Hs in Hrun. unfold bind at 1 in Hrun. rewrite Ht in Hrun.
    rewrite Hrun. intros [= <- <-]. cbn [states seqs bodies]. repeat split.
    + intros l s0 Hl. destruct (decide (l = self)) as [-> | Hne].
      * rewrite lookup_insert_eq. rewrite Hs in Hl. injection Hl as <-.
        eexists. split; [reflexivity|]. intros Hc. contradiction.
      * rewrite lookup_insert_ne by auto. rewrite Hl.
        destruct s0 as [a0 e0 r0 v0 c0]. exists c0. split; auto.
    + intros t items Hl. rewrite lookup_insert_ne; [assumption|].
      intros <-. rewrite fresh_tuple_unused in Hl. discriminate.
  - unfold bind at 1, deref at 1. rewrite Hb. intros [= <- <-]. apply Hsame.
Qed.

(** X14: the cache test is the truth value of [self._elements]: when the
    cached reference points to a sequence that has become empty, the
    property computes the elements again from the vectors and overwrites the
    cache with a new tuple. *)
Theorem elements_recomputed_when_cache_empty
  (self t : loc) (s : obj) (body_k : Quantity) (w : world) :
  states w !! self = Some s ->
  _elements s = Some t ->
  seqs w !! t = Some [] ->
  bodies w !! attractor s = Some body_k ->
  let k := value (to body_k km3_s2) in
  let r0 := vmap (fun q => value (to q u_km)) (r s) in
  let v0 := vmap (fun q => value (to q (u_div u_km u_s))) (v s) in
  let t' := fresh (dom (seqs w)) in
  t' <> t
  /\ State.elements self w =
     (Return (Some t'),
      World (<[self := Obj (attractor s) (epoch s) (r s) (v s) (Some t')]>
               (states w))
            (<[t' := State.degrees_tuple (Float.rv2coe k r0 v0)]> (seqs w))
            (bodies w)
            (log w ++ [EvRv2coe k r0 v0])).
Proof.
  intros Hs He Hi Hb k r0 v0 t'. split.
  - intros E. pose proof (fresh_tuple_unused w) as Hf. fold t' in Hf.
    rewrite E, Hi in Hf. discriminate.
  - apply (elements_recomputed self s body_k w Hs); [|exact Hb].
    unfold truthy. rewrite He, Hi. reflexivity.
Qed.

(** X15: the cache is not carried over by [propagate]: with a unit
    collaborator that returns the magnitude it was given when a km or km/s
    quantity is converted to its own unit, the [elements] property of the
    propagated instance calls [rv2coe] on the solver's vectors and stores a
    tuple that did not exist before. *)
Theorem propagate_then_elements
  (self : loc) (tof body_k : Quantity) (s : obj)
  (r1 v1 : vec R) (raw : string) (w : world) :
  (forall x, value (to (q_of x u_km) u_km) = x) ->
  (forall x, value (to (q_per (q_of x u_km) u_s) (u_div u_km u_s)) = x) ->
  states w !! self = Some s ->
  bodies w !! attractor s = Some body_k ->
  let k := value (to body_k km3_s2) in
  let r0 := vmap (fun q => value (to q u_km)) (r s) in
  let v0 := vmap (fun q => value (to q (u_div u_km u_s))) (v s) in
  let t := value (to tof u_s) in
  let r1' := vmap (fun x => q_of x u_km) r1 in
  let v1' := vmap (fun x => q_per (q_of x u_km) u_s) v1 in
  ast2body_kepler r0 v0 t k = (r1, v1, raw) ->
  strip raw = "ok"%string ->
  check_units_vec [r1'; v1'] [u_m; u_div u_m u_s] = true ->
  let new := fresh (dom (states w)) in
  let w1 := snd (State.propagate self tof w) in
  let tup := fresh (dom (seqs w)) in
  fst (State.elements new w1) = Return (Some tup)
  /\ seqs w !! tup = None
  /\ seqs (snd (State.elements new w1)) !! tup
     = Some (State.degrees_tuple (Float.rv2coe k r1 v1))
  /\ log (snd (State.elements new w1))
     = log w ++ [EvSolver r0 v0 t k;
                 EvCheckUnitsVec [r1'; v1'] [u_m; u_div u_m u_s];
                 EvRv2coe k r1 v1].
Proof.
  intros Hkm Hkms Hs Hb k r0 v0 t r1' v1' Hk Hok Hc new w1 tup. subst w1.
  rewrite (propagate_run self tof body_k s r1 v1 raw w Hs Hb Hk Hok Hc).
  cbn [snd]. fold new r1' v1'.
  assert (Er : vmap (fun q => value (to q u_km)) r1' = r1).
  { unfold r1', vmap. destruct r1 as [x y z]. cbn [vx vy vz].
    rewrite !Hkm. reflexivity. }
  assert (Ev : vmap (fun q => value (to q (u_div u_km u_s))) v1' = v1).
  { unfold v1', vmap. destruct v1 as [x y z]. cbn [vx vy vz].
    rewrite !Hkms. reflexivity. }
  erewrite elements_computed;
    [|apply lookup_insert_eq | reflexivity | cbn [attractor bodies]; exact Hb].
  cbn [fst snd seqs log attractor epoch r v]. rewrite Er, Ev. fold k tup.
  repeat split.
  - apply fresh_tuple_unused.
  - apply lookup_insert_eq.
  - rewrite <- app_assoc. reflexivity.
Qed.


End TwobodyExtra.

Module ExtraWitnesses.
Import SI Sample SampleExtra.
Local Open Scope R_scope.

Lemma si_km_law (x : R) : magnitude (convert (Q x Kilometre) Kilometre) = x.
Proof. cbn. field. Qed.

Lemma si_km_s_law (x : R) :
  magnitude (convert (Q (magnitude (Q x Kilometre)) (UDiv Kilometre Second))
                     (UDiv Kilometre Second)) = x.
Proof. cbn. field. Qed.

Lemma kepler_ignores_padding_witness :
  fst (kepler (U := units) (S := stub "   ok  ") 398600 (Vec 7000 0 0)
              (Vec 0 (15 / 2) 0) 60 w0)
  = Return (Vec 7000 0 0, Vec 0 (15 / 2) 0).
Proof.
  rewrite (kepler_ignores_padding (U := units) (S := stub "   ok  ") 398600 60
             (Vec 7000 0 0) (Vec 0 (15 / 2) 0) (Vec 7000 0 0) (Vec 0 (15 / 2) 0)
             "   " "ok" "  " w0); reflexivity.
Defined.

Lemma kepler_undecodable_status_witness :
  fst (kepler (U := units) (S := stub status_latin1) 398600 (Vec 7000 0 0)
              (Vec 0 (15 / 2) 0) 60 w0)
  = Raise UnicodeDecodeError.
Proof.
  rewrite (kepler_undecodable_status (U := units) (S := stub status_latin1)
             398600 60 (Vec 7000 0 0) (Vec 0 (15 / 2) 0)
             (Vec 7000 0 0) (Vec 0 (15 / 2) 0) status_latin1 w0); reflexivity.
Defined.

Lemma propagate_failure_creates_nothing_witness :
  State.propagate (U := units) (S := stub "no convergence  ") 5%positive
    (Q 60 Second) w0
  = (Raise (RuntimeError "There was an error: no convergence"),
     World (states w0) (seqs w0) (bodies w0)
           [EvSolver (vmap (fun q => magnitude (convert q Kilometre)) r_example)
                     (vmap (fun q => magnitude (convert q km_s)) v_example)
                     (magnitude (convert (Q 60 Second) Second))
                     (magnitude (convert earth_k
                                   (UDiv (UPow Kilometre 3) (UPow Second 2))))]).
Proof.
  apply (propagate_failure_creates_nothing (U := units)
           (S := stub "no convergence  ") 5%positive (Q 60 Second) earth_k
           s_plain
           (vmap (fun q => magnitude (convert q Kilometre)) r_example)
           (vmap (fun q => magnitude (convert q km_s)) v_example)
           "no convergence  " w0); try reflexivity.
  discriminate.
Defined.

Lemma from_elements_units_error_witness :
  fst (State.from_elements (U := units) 1%positive 9%positive 0 w1)
  = Raise (UnitsError "Units must be consistent").
Proof.
  rewrite (from_elements_units_error (U := units) 1%positive 9%positive 0
             els_bad w1); reflexivity.
Defined.

Lemma elements_recomputed_when_cache_empty_witness :
  fst (State.elements (U := units) 8%positive w1)
  = Return (Some (fresh (dom (seqs w1)))).
Proof.
  destruct (elements_recomputed_when_cache_empty (U := units) 8%positive
              7%positive s_emptied earth_k w1) as [_ H]; [reflexivity ..|].
  rewrite H. reflexivity.
Defined.

Lemma propagate_then_elements_witness :
  fst (State.elements (U := units) (fresh (dom (states w0)))
         (snd (State.propagate (U := units) (S := stub "ok      ") 5%positive
                 (Q 60 Second) w0)))
  = Return (Some (fresh (dom (seqs w0)))).
Proof.
  apply (propagate_then_elements (U := units) (S := stub "ok      ")
           5%positive (Q 60 Second) earth_k s_plain
           (vmap (fun q => magnitude (convert q Kilometre)) r_example)
           (vmap (fun q => magnitude (convert q km_s)) v_example)
           "ok      " w0); try reflexivity.
  - exact si_km_law.
  - exact si_km_s_law.
Defined.



End ExtraWitnesses.

(** * A cached list that its owner empties *)

Module EmptiedCache.
Import SI Sample.
Local Open Scope R_scope.


End EmptiedCache.

(** * The inverse round trip *)

Module Inverse.
Import Float Reference FloatFacts FloatExtra.
Local Open Scope R_scope.

Lemma triple_cyclic (a b c : vec R) : dot a (cross b c) = dot b (cross c a).
Proof. unfold dot, cross; simpl; ring. Qed.

Lemma dot_comm (a b : vec R) : dot a b = dot b a.
Proof. unfold dot; ring. Qed.

Lemma dot_vscale_l (s : R) (a b : vec R) : dot (vscale s a) b = s * dot a b.
Proof. unfold dot; simpl; ring. Qed.

Lemma dot_vscale_r (s : R) (a b : vec R) : dot a (vscale s b) = s * dot a b.
Proof. unfold dot; simpl; ring. Qed.

Lemma dot_vdiv_l (s : R) (a b : vec R) : dot (vdiv a s) b = dot a b / s.
Proof. unfold dot; simpl; unfold Rdiv; ring. Qed.

Lemma cross_vscale_l (s : R) (a b : vec R) :
  cross (vscale s a) b = vscale s (cross a b).
Proof. apply vec_eq; simpl; ring. Qed.

Lemma cross_vscale_r (s : R) (a b : vec R) :
  cross a (vscale s b) = vscale s (cross a b).
Proof. apply vec_eq; simpl; ring. Qed.

Lemma dot_WP O i w : dot (Wv O i) (Pv O i w) = 0.
Proof.
  unfold dot, Wv, Pv; cbn [vx vy vz].
  transitivity (cos i * sin i * sin w * (1 - (sin O * sin O + cos O * cos O)));
    [ring | rewrite circle; ring].
Qed.

Lemma dot_WQ O i w : dot (Wv O i) (Qv O i w) = 0.
Proof.
  unfold dot, Wv, Qv; cbn [vx vy vz].
  transitivity (cos i * sin i * cos w * (1 - (sin O * sin O + cos O * cos O)));
    [ring | rewrite circle; ring].
Qed.

Lemma cross_WP O i w : cross (Wv O i) (Pv O i w) = Qv O i w.
Proof.
  pose proof (circle O) as HO. pose proof (circle i) as Hi.
  apply vec_eq; unfold cross, Wv, Pv, Qv; cbn [vx vy vz].
  - transitivity (- cos O * sin w * (sin i * sin i + cos i * cos i)
                  - sin O * cos i * cos w); [ring | rewrite Hi; ring].
  - transitivity (- sin O * sin w * (sin i * sin i + cos i * cos i)
                  + cos O * cos i * cos w); [ring | rewrite Hi; ring].
  - transitivity (sin i * cos w * (sin O * sin O + cos O * cos O));
      [ring | rewrite HO; ring].
Qed.

(** The perifocal basis is complete: a vector is the sum of its three
    components. *)
Lemma frame_complete (O i w : R) (u : vec R) :
  u = vadd (comb (dot u (Pv O i w)) (dot u (Qv O i w)) (Pv O i w) (Qv O i w))
           (vscale (dot u (Wv O i)) (Wv O i)).
Proof.
  pose proof (circle O) as HO. pose proof (circle i) as Hi.
  pose proof (circle w) as Hw.
  set (cO := cos O) in *. set (sO := sin O) in *.
  set (ci := cos i) in *. set (si := sin i) in *.
  set (cw := cos w) in *. set (sw := sin w) in *.
  destruct u as [x y z].
  apply vec_eq; unfold comb, vadd, vscale, dot, Pv, Qv, Wv; cbn [vx vy vz];
    fold cO sO ci si cw sw; nsatz.
Qed.

Lemma plane_decomposition (O i w : R) (u : vec R) :
  dot u (Wv O i) = 0 ->
  u = comb (dot u (Pv O i w)) (dot u (Qv O i w)) (Pv O i w) (Qv O i w).
Proof.
  intros Hu. rewrite (frame_complete O i w u) at 1. rewrite Hu.
  apply vec_eq; simpl; ring.
Qed.

Lemma Pv_turn (O i w : R) :
  Pv O i w = comb (cos w) (sin w) (Pv O i 0) (Qv O i 0).
Proof.
  unfold comb, vadd, vscale, Pv, Qv. rewrite cos_0, sin_0.
  apply vec_eq; simpl; ring.
Qed.


(** Every point off the origin has a polar angle in (-pi, pi]. *)
Lemma polar_angle (x y : R) :
  0 < x * x + y * y ->
  exists t, - PI < t <= PI
            /\ x = sqrt (x * x + y * y) * cos t
            /\ y = sqrt (x * x + y * y) * sin t.
Proof.
  intros Hpos. pose proof PI_RGT_0 as Hpi.
  set (R0 := sqrt (x * x + y * y)).
  assert (HR : 0 < R0) by (apply sqrt_lt_R0; assumption).
  assert (HRR : R0 * R0 = x * x + y * y) by (apply sqrt_sqrt; lra).
  set (c := x / R0).
  assert (Hx : x = R0 * c) by (unfold c; field; lra).
  assert (Hc : -1 <= c <= 1).
  { assert (c * c <= 1).
    { apply Rmult_le_reg_r with (R0 * R0); [nra|].
      replace (c * c * (R0 * R0)) with (x * x) by (rewrite Hx at 1 2; ring).
      nra. }
    nra. }
  assert (Hs : 1 - c² = (y / R0) * (y / R0)).
  { unfold Rsqr, c. field_simplify; [|lra|lra].
    replace (R0 ^ 2) with (x * x + y * y) by (rewrite <- HRR; ring).
    field. lra. }
  pose proof (acos_bound c) as Hb.
  destruct (Rle_dec 0 y) as [Hy | Hy].
  - exists (acos c). split; [lra|]. rewrite cos_acos, sin_acos by assumption.
    split; [exact Hx|].
    rewrite (sqrt_lem_1 (1 - c²) (y / R0)).
    + field; lra.
    + rewrite Hs. nra.
    + apply Rle_mult_inv_pos; lra.
    + symmetry; exact Hs.
  - exists (- acos c). rewrite cos_neg, sin_neg, cos_acos, sin_acos by assumption.
    assert (Hlt : acos c < PI).
    { destruct (Req_dec (acos c) PI) as [E | E]; [|lra].
      exfalso. pose proof (cos_acos c Hc) as Hcc. rewrite E, cos_PI in Hcc.
      assert (x = - R0) by (rewrite Hx, <- Hcc; ring). nra. }
    split; [lra|]. split; [exact Hx|].
    rewrite (sqrt_lem_1 (1 - c²) (- (y / R0))).
    + field; lra.
    + rewrite Hs. nra.
    + pose proof (Rinv_0_lt_compat R0 HR). unfold Rdiv. nra.
    + rewrite Hs. ring.
Qed.

(** The angle that [arctan2] followed by [% (2 pi)] returns is a polar angle
    of the point. *)
Lemma arctan2_mod_polar (x y : R) :
  0 < x * x + y * y ->
  let t := pymod (arctan2 y x) (2 * PI) in
  x = sqrt (x * x + y * y) * cos t /\ y = sqrt (x * x + y * y) * sin t.
Proof.
  intros Hpos t0. destruct (polar_angle x y Hpos) as (t & Ht & Hx & Hy).
  assert (HR : 0 < sqrt (x * x + y * y)) by (apply sqrt_lt_R0; assumption).
  assert (E : arctan2 y x = t).
  { transitivity (arctan2 (sqrt (x * x + y * y) * sin t)
                           (sqrt (x * x + y * y) * cos t)).
    - rewrite <- Hx, <- Hy. reflexivity.
    - apply arctan2_polar; assumption. }
  unfold t0. rewrite E.
  destruct (trig_period_Z (pymod t (2 * PI)) (Int_part (t / (2 * PI))))
    as [Es Ec].
  replace (pymod t (2 * PI) + 2 * IZR (Int_part (t / (2 * PI))) * PI)
    with t in Es, Ec by (unfold pymod; ring).
  rewrite <- Es, <- Ec. split; assumption.
Qed.

(** Scalar products of the eccentricity vector of line 163. *)
Section EccentricityVector.
Variables (k : R) (r v : vec R).
Let h := cross r v.
Let e := vdiv (vsub (vscale (dot v v - k / norm r) r) (vscale (dot r v) v)) k.

Lemma ecc_dot_h : k <> 0 -> dot e h = 0.
Proof using Type.
  intros Hk. unfold e, h. generalize (dot v v - k / norm r) as A. intros A.
  unfold dot, cross, vdiv, vsub, vscale; simpl. field. assumption.
Qed.

Lemma r_dot_h : dot r h = 0.
Proof using Type. unfold h, dot, cross; simpl; ring. Qed.

Lemma v_dot_h : dot v h = 0.
Proof using Type. unfold h, dot, cross; simpl; ring. Qed.

Lemma r_dot_ecc :
  0 < k -> norm r <> 0 -> dot r e = dot h h / k - norm r.
Proof using Type.
  intros Hk Hr. unfold h. rewrite dot_cross_cross.
  transitivity (((dot v v - k / norm r) * dot r r - dot r v * dot r v) / k).
  - unfold e. generalize (dot v v - k / norm r) as A. intros A.
    unfold dot, vdiv, vsub, vscale; simpl. field. lra.
  - rewrite <- (norm_sqr r). field. split; lra.
Qed.

Lemma v_dot_ecc :
  0 < k -> norm r <> 0 -> dot v e = - dot r v / norm r.
Proof using Type.
  intros Hk Hr.
  transitivity (dot r v * ((dot v v - k / norm r) - dot v v) / k).
  - unfold e. generalize (dot v v - k / norm r) as A. intros A.
    unfold dot, vdiv, vsub, vscale; simpl. field. lra.
  - field. split; lra.
Qed.

Lemma h_dot_ecc_cross_r :
  k <> 0 -> dot h (cross e r) = dot r v * (dot h h / k).
Proof using Type.
  intros Hk. unfold e, h. generalize (dot v v - k / norm r) as A. intros A.
  unfold dot, cross, vdiv, vsub, vscale; simpl. field. assumption.
Qed.

Lemma h_dot_ecc_cross_v :
  k <> 0 -> dot h (cross e v) = (dot v v - k / norm r) * (dot h h / k).
Proof using Type.
  intros Hk. unfold e, h. generalize (dot v v - k / norm r) as A. intros A.
  unfold dot, cross, vdiv, vsub, vscale; simpl. field. assumption.
Qed.
End EccentricityVector.


(** The inclination and the node angle of [rv2coe] orient the basis along
    the angular momentum [h]. *)
Lemma frame_from_momentum (h : vec R) :
  norm h <> 0 -> 0 < vx h * vx h + vy h * vy h ->
  let n := vdiv (cross (Vec 0 0 1) h) (norm h) in
  let inc := acos (vz h / norm h) in
  let raan := pymod (arctan2 (vy n) (vx n)) (2 * PI) in
  let s := sqrt (vx h * vx h + vy h * vy h) in
  Wv raan inc = vdiv h (norm h)
  /\ n = vscale (s / norm h) (Pv raan inc 0).
Proof.
  intros Hh Hxy n inc raan s.
  pose proof (norm_pos _ Hh) as HH. pose proof (norm_sqr h) as Hsq.
  assert (Hs : 0 < s) by (apply sqrt_lt_R0; assumption).
  assert (Hss : s * s = vx h * vx h + vy h * vy h) by (apply sqrt_sqrt; lra).
  assert (Hdot : dot h h = s * s + vz h * vz h) by (rewrite Hss; unfold dot; ring).
  assert (Hci : cos inc = vz h / norm h).
  { unfold inc. apply cos_acos.
    assert (vz h * vz h <= norm h * norm h) by nra.
    split; apply Rmult_le_reg_r with (norm h); try lra;
      unfold Rdiv; rewrite Rmult_assoc, Rinv_l by lra; nra. }
  assert (Hsi : sin inc = s / norm h).
  { unfold inc. rewrite sin_acos.
    - apply sqrt_lem_1.
      + unfold Rsqr.
        replace (1 - vz h / norm h * (vz h / norm h))
          with (s * s / (norm h * norm h)) by (field_simplify_eq; [nra | lra]).
        apply Rle_mult_inv_pos; nra.
      + apply Rle_mult_inv_pos; lra.
      + unfold Rsqr. field_simplify_eq; [nra | lra].
    - assert (vz h * vz h <= norm h * norm h) by nra.
      split; apply Rmult_le_reg_r with (norm h); try lra;
        unfold Rdiv; rewrite Rmult_assoc, Rinv_l by lra; nra. }
  assert (Hnx : vx n = - vy h / norm h) by (unfold n; simpl; field; lra).
  assert (Hny : vy n = vx h / norm h) by (unfold n; simpl; field; lra).
  assert (Hnn : vx n * vx n + vy n * vy n = s / norm h * (s / norm h)).
  { rewrite Hnx, Hny. field_simplify_eq; [nra | lra]. }
  assert (Hnpos : 0 < vx n * vx n + vy n * vy n).
  { rewrite Hnn. apply Rmult_lt_0_compat; apply Rdiv_lt_0_compat; lra. }
  destruct (arctan2_mod_polar (vx n) (vy n) Hnpos) as [Hcx Hsy].
  fold raan in Hcx, Hsy.
  assert (HRn : sqrt (vx n * vx n + vy n * vy n) = s / norm h).
  { rewrite Hnn. apply sqrt_square, Rlt_le, Rdiv_lt_0_compat; lra. }
  rewrite HRn in Hcx, Hsy.
  assert (HcO : cos raan = - vy h / s).
  { apply Rmult_eq_reg_l with (s / norm h).
    - rewrite <- Hcx, Hnx. field. repeat split; lra.
    - apply Rgt_not_eq, Rdiv_lt_0_compat; lra. }
  assert (HsO : sin raan = vx h / s).
  { apply Rmult_eq_reg_l with (s / norm h).
    - rewrite <- Hsy, Hny. field. repeat split; lra.
    - apply Rgt_not_eq, Rdiv_lt_0_compat; lra. }
  split.
  - unfold Wv. rewrite HcO, HsO, Hci, Hsi.
    apply vec_eq; simpl; field; repeat split; lra.
  - unfold Pv. rewrite cos_0, sin_0, HcO, HsO.
    apply vec_eq; cbn [vx vy vz vscale]; try (rewrite ?Hnx, ?Hny; field; repeat split; lra).
    unfold n; simpl; field; lra.
Qed.


Lemma norm_sq_plane (O i w : R) (u : vec R) :
  dot u (Wv O i) = 0 ->
  dot u u = dot u (Pv O i w) * dot u (Pv O i w)
            + dot u (Qv O i w) * dot u (Qv O i w).
Proof.
  intros Hu. rewrite (plane_decomposition O i w u Hu) at 1 2.
  apply dot_comb.
Qed.

(** The argument of perigee of [rv2coe] turns the first basis vector onto
    the eccentricity vector [e]. *)
Lemma perigee_direction (h e n : vec R) (O i kappa : R) :
  norm h <> 0 -> norm e <> 0 -> dot e h = 0 ->
  Wv O i = vdiv h (norm h) ->
  0 < kappa -> n = vscale kappa (Pv O i 0) ->
  let argp := pymod (arctan2 (dot h (cross n e) / norm h) (dot e n)) (2 * PI) in
  vscale (norm e) (Pv O i argp) = e.
Proof.
  intros Hh He Heh HW Hk Hn argp.
  pose proof (norm_pos _ Hh) as HH. pose proof (norm_pos _ He) as Hecc.
  assert (HeW : dot e (Wv O i) = 0).
  { rewrite HW, dot_comm, dot_vdiv_l, dot_comm, Heh. unfold Rdiv; ring. }
  set (P0 := Pv O i 0) in *. set (Q0 := Qv O i 0).
  assert (Hx : dot e n = kappa * dot e P0).
  { rewrite Hn. apply dot_vscale_r. }
  assert (Hy : dot h (cross n e) / norm h = kappa * dot e Q0).
  { rewrite <- dot_vdiv_l, <- HW, Hn, cross_vscale_l, dot_vscale_r.
    rewrite triple_cyclic, triple_cyclic. unfold P0, Q0.
    rewrite cross_WP. reflexivity. }
  pose proof (norm_sq_plane O i 0 e HeW) as Hee. fold P0 Q0 in Hee.
  rewrite <- norm_sqr in Hee.
  assert (Hsum : dot e n * dot e n
                 + dot h (cross n e) / norm h * (dot h (cross n e) / norm h)
                 = kappa * norm e * (kappa * norm e)).
  { rewrite Hx, Hy.
    transitivity (kappa * kappa * (norm e * norm e)); [rewrite Hee|]; ring. }
  assert (Hpos : 0 < dot e n * dot e n
                     + dot h (cross n e) / norm h * (dot h (cross n e) / norm h)).
  { rewrite Hsum. apply Rmult_lt_0_compat; apply Rmult_lt_0_compat; lra. }
  destruct (arctan2_mod_polar _ _ Hpos) as [Hc Hs]. fold argp in Hc, Hs.
  rewrite Hsum, sqrt_square in Hc, Hs by (apply Rlt_le, Rmult_lt_0_compat; lra).
  rewrite Hx in Hc. rewrite Hy in Hs.
  assert (Hc' : dot e P0 = norm e * cos argp) by nra.
  assert (Hs' : dot e Q0 = norm e * sin argp) by nra.
  rewrite (plane_decomposition O i 0 e HeW) at 2. fold P0 Q0.
  rewrite Hc', Hs', Pv_turn. fold P0 Q0.
  apply vec_eq; simpl; ring.
Qed.


(** The true anomaly of [rv2coe] is the polar angle of the position in the
    perifocal plane. *)
Lemma anomaly_direction (h e r : vec R) (O i w : R) :
  norm h <> 0 -> norm e <> 0 -> norm r <> 0 -> dot r h = 0 ->
  Wv O i = vdiv h (norm h) ->
  vscale (norm e) (Pv O i w) = e ->
  let nu := pymod (arctan2 (dot h (cross e r) / norm h) (dot r e)) (2 * PI) in
  dot r (Pv O i w) = norm r * cos nu /\ dot r (Qv O i w) = norm r * sin nu.
Proof.
  intros Hh He Hr Hrh HW HP nu.
  pose proof (norm_pos _ Hh) as HH. pose proof (norm_pos _ He) as Hecc.
  pose proof (norm_pos _ Hr) as Hrho.
  assert (HrW : dot r (Wv O i) = 0).
  { rewrite HW, dot_comm, dot_vdiv_l, dot_comm, Hrh. unfold Rdiv; ring. }
  assert (Hx : dot r e = norm e * dot r (Pv O i w)).
  { rewrite <- HP at 1. apply dot_vscale_r. }
  assert (Hy : dot h (cross e r) / norm h = norm e * dot r (Qv O i w)).
  { rewrite <- dot_vdiv_l, <- HW. rewrite <- HP at 1.
    rewrite cross_vscale_l, dot_vscale_r.
    rewrite triple_cyclic, triple_cyclic, cross_WP. reflexivity. }
  pose proof (norm_sq_plane O i w r HrW) as Hrr. rewrite <- norm_sqr in Hrr.
  assert (Hsum : dot r e * dot r e
                 + dot h (cross e r) / norm h * (dot h (cross e r) / norm h)
                 = norm e * norm r * (norm e * norm r)).
  { rewrite Hx, Hy.
    transitivity (norm e * norm e * (norm r * norm r)); [rewrite Hrr|]; ring. }
  assert (Hpos : 0 < dot r e * dot r e
                     + dot h (cross e r) / norm h * (dot h (cross e r) / norm h)).
  { rewrite Hsum. apply Rmult_lt_0_compat; apply Rmult_lt_0_compat; lra. }
  destruct (arctan2_mod_polar _ _ Hpos) as [Hc Hs]. fold nu in Hc, Hs.
  rewrite Hsum, sqrt_square in Hc, Hs by (apply Rlt_le, Rmult_lt_0_compat; lra).
  rewrite Hx in Hc. rewrite Hy in Hs. split; nra.
Qed.


Lemma basis_components (h e u : vec R) (O i w : R) :
  Wv O i = vdiv h (norm h) ->
  vscale (norm e) (Pv O i w) = e ->
  dot u e = norm e * dot u (Pv O i w)
  /\ dot h (cross e u) / norm h = norm e * dot u (Qv O i w).
Proof.
  intros HW HP. split.
  - rewrite <- HP at 1. apply dot_vscale_r.
  - rewrite <- dot_vdiv_l, <- HW. rewrite <- HP at 1.
    rewrite cross_vscale_l, dot_vscale_r.
    rewrite triple_cyclic, triple_cyclic, cross_WP. reflexivity.
Qed.

Lemma coe2rv_rv2coe_vectors (k : R) (r v : vec R) :
  0 < k -> norm r <> 0 -> norm (cross r v) <> 0 ->
  0 < vx (cross r v) * vx (cross r v) + vy (cross r v) * vy (cross r v) ->
  let '(a, ecc, inc, raan, argp, nu) := rv2coe k r v in
  0 < ecc < 1 ->
  coe2rv k a ecc inc raan argp nu = (r, v).
Proof.
  intros Hk Hr Hh Hxy. unfold rv2coe. cbv zeta.
  set (h := cross r v) in *.
  set (n := vdiv (cross (Vec 0 0 1) h) (norm h)).
  set (e := vdiv (vsub (vscale (dot v v - k / norm r) r) (vscale (dot r v) v)) k).
  set (inc := acos (vz h / norm h)).
  set (raan := pymod (arctan2 (vy n) (vx n)) (2 * PI)).
  set (argp := pymod (arctan2 (dot h (cross n e) / norm h) (dot e n)) (2 * PI)).
  set (nu := pymod (arctan2 (dot h (cross e r) / norm h) (dot r e)) (2 * PI)).
  intros Hecc.
  pose proof (norm_pos _ Hh) as HH. pose proof (norm_pos _ Hr) as Hrho.
  assert (He : norm e <> 0) by lra.
  destruct (frame_from_momentum h Hh Hxy) as [HW Hn].
  fold n inc raan in HW, Hn.
  assert (Hkappa : 0 < sqrt (vx h * vx h + vy h * vy h) / norm h).
  { apply Rdiv_lt_0_compat; [apply sqrt_lt_R0|]; assumption. }
  assert (Heh : dot e h = 0) by (apply ecc_dot_h; lra).
  pose proof (perigee_direction h e n raan inc _ Hh He Heh HW Hkappa Hn) as HP.
  fold argp in HP.
  pose proof (r_dot_h r v) as Hrh. pose proof (v_dot_h r v) as Hvh.
  cbv zeta in Hrh, Hvh. fold h in Hrh, Hvh.
  destruct (anomaly_direction h e r raan inc argp Hh He Hr Hrh HW HP)
    as [HrP HrQ]. fold nu in HrP, HrQ.
  destruct (basis_components h e r raan inc argp HW HP) as [HreP HreQ].
  destruct (basis_components h e v raan inc argp HW HP) as [HveP HveQ].
  pose proof (r_dot_ecc k r v Hk Hr) as I1.
  pose proof (v_dot_ecc k r v Hk Hr) as I2.
  pose proof (h_dot_ecc_cross_r k r v (Rgt_not_eq _ _ Hk)) as I3.
  pose proof (h_dot_ecc_cross_v k r v (Rgt_not_eq _ _ Hk)) as I4.
  pose proof (one_minus_ecc_sqr k r v Hk Hr) as I6.
  cbv zeta in I1, I2, I3, I4, I6. fold h e in I1, I2, I3, I4, I6.
  rewrite <- (norm_sqr h) in *.
  assert (HrW : dot r (Wv raan inc) = 0).
  { rewrite HW, dot_comm, dot_vdiv_l, dot_comm, Hrh. unfold Rdiv; ring. }
  assert (HvW : dot v (Wv raan inc) = 0).
  { rewrite HW, dot_comm, dot_vdiv_l, dot_comm, Hvh. unfold Rdiv; ring. }
  rewrite coe2rv_frame. cbv zeta.
  set (P := Pv raan inc argp) in *. set (Q := Qv raan inc argp) in *.
  (* scalars *)
  set (rho := norm r) in *. set (H := norm h) in *. set (ec := norm e) in *.
  set (sig := dot r v) in *. set (vv := dot v v) in *.
  assert (Hec2 : ec * ec = 1 - H * H / k * (2 / rho - vv / k)).
  { replace (ec * ec) with (ec ^ 2) by (simpl; ring). lra. }
  assert (Hone : 1 - ec ^ 2 <> 0) by (simpl; nra).
  assert (Hp : H * H / k / (1 - ec ^ 2) * (1 - ec ^ 2) = H * H / k)
    by (field; split; first [exact Hone | lra]).
  rewrite Hp.
  assert (Hq : sqrt (k / (H * H / k)) = k / H).
  { apply sqrt_lem_1.
    - apply Rlt_le, Rdiv_lt_0_compat; [lra|]. apply Rdiv_lt_0_compat; nra.
    - apply Rlt_le, Rdiv_lt_0_compat; lra.
    - field. split; lra. }
  rewrite Hq.
  assert (ErP : dot r P = (H * H / k - rho) / ec).
  { rewrite <- I1, HreP. field. lra. }
  assert (ErQ : dot r Q = sig * (H * H / k) / (H * ec)).
  { apply Rmult_eq_reg_l with ec; [|lra]. rewrite <- HreQ, I3. field.
    repeat split; lra. }
  assert (EvP : dot v P = - sig / rho / ec).
  { rewrite <- I2, HveP. field. lra. }
  assert (EvQ : dot v Q = (vv - k / rho) * (H * H / k) / (H * ec)).
  { apply Rmult_eq_reg_l with ec; [|lra]. rewrite <- HveQ, I4. field.
    repeat split; lra. }
  assert (Hcos : cos nu = (H * H / k - rho) / ec / rho).
  { apply Rmult_eq_reg_l with rho; [|lra]. rewrite <- HrP, ErP. field.
    split; lra. }
  assert (Hsin : sin nu = sig * (H * H / k) / (H * ec) / rho).
  { apply Rmult_eq_reg_l with rho; [|lra]. rewrite <- HrQ, ErQ. field.
    repeat split; lra. }
  transitivity (comb (dot r P) (dot r Q) P Q, comb (dot v P) (dot v Q) P Q).
  2:{ unfold P, Q. f_equal; symmetry; apply plane_decomposition; assumption. }
  rewrite Hcos, Hsin, ErP, ErQ, EvP, EvQ.
  f_equal; f_equal.
  - field. repeat split; try lra. nra.
  - field. repeat split; try lra. nra.
  - field. repeat split; lra.
  - transitivity ((vv - k / rho) * (H * H / k) / (H * ec)
                  + (ec * ec - (1 - H * H / k * (2 / rho - vv / k)))
                    * (k / (H * ec))).
    + field. repeat split; lra.
    + rewrite Hec2. field. repeat split; lra.
Qed.


(** X17: the inverse round trip.  For vectors of an inclined, non-circular
    closed orbit ([rv2coe] reports [0 < ecc < 1] and the angular momentum is
    not along the z axis), [coe2rv] applied to the elements that [rv2coe]
    returns gives back the position and the velocity. *)
Theorem coe2rv_after_rv2coe (k : R) (r v : vec R) :
  0 < k -> norm r <> 0 -> norm (cross r v) <> 0 ->
  0 < vx (cross r v) * vx (cross r v) + vy (cross r v) * vy (cross r v) ->
  let '(a, ecc, inc, raan, argp, nu) := rv2coe k r v in
  0 < ecc < 1 ->
  coe2rv k a ecc inc raan argp nu = (r, v).
Proof. apply coe2rv_rv2coe_vectors. Qed.

Lemma norm_from_square (a : vec R) (l : R) :
  0 <= l -> dot a a = l * l -> norm a = l.
Proof. intros Hl E. unfold norm. rewrite E. now apply sqrt_square. Qed.

Lemma coe2rv_after_rv2coe_witness :
  let '(a, ecc, inc, raan, argp, nu) := rv2coe 3 (Vec 1 0 0) (Vec 0 1 1) in
  coe2rv 3 a ecc inc raan argp nu = (Vec 1 0 0, Vec 0 1 1).
Proof.
  assert (Hr : norm (Vec 1 0 0) = 1) by apply norm_unit_x.
  assert (Hh : 0 < norm (cross (Vec 1 0 0) (Vec 0 1 1))).
  { unfold norm. apply sqrt_lt_R0. unfold dot, cross; simpl. lra. }
  pose proof (coe2rv_after_rv2coe 3 (Vec 1 0 0) (Vec 0 1 1)) as T.
  unfold rv2coe in *. cbv zeta in *. apply T; clear T.
  - lra.
  - lra.
  - lra.
  - simpl. lra.
  - rewrite Hr.
    rewrite (norm_from_square _ (1 / 3)); [lra | lra |].
    unfold dot, vdiv, vsub, vscale; simpl. field.
Defined.
End Inverse.
